(** * Storage: the synchronous Web Storage facade over AsyncStorage

    A shallow embedding of
    [react/features/base/lib-jitsi-meet/native/Storage.js].

    The class keeps a JavaScript [Map] of data items and, when it was given a
    key prefix, mirrors every mutation to React Native's [AsyncStorage] and
    loads the persisted items back once, at construction.  The embedding
    follows the source method by method:

    - JavaScript values and the few string primitives the class uses;
    - [JsMap]: the ECMAScript [Map], as the list of entries of the language
      specification, where a deleted entry stays in the list as an empty
      slot so that iterators stay valid while the map is mutated;
    - the [Storage] record: the two fields of the class, the state of the
      one promise chain the constructor starts, and the recorded calls to
      [AsyncStorage];
    - the methods, the two promise callbacks of the constructor, and the
      event loop that interleaves them. *)

From Stdlib Require Import List String Ascii Bool Arith ZArith Lia.
Import ListNotations.
Open Scope string_scope.
Open Scope list_scope.

(** ** JavaScript values *)

(** The values that reach the class.  Flow types keys and values as strings;
    [undefined], [null] and booleans are kept because the source tests the
    prefix against [undefined], coerces with [String(...)], and returns
    [null] and [undefined].  Numbers only occur as the result of [length]
    and as the argument of [key], where they are integers.  A string is
    the sequence of its code units, one [ascii] each. *)
Inductive jsval : Type :=
| JUndefined
| JNull
| JBool (b : bool)
| JStr (s : string).

(** [String(v)], the ToString coercion. *)
Definition ToString (v : jsval) : string :=
  match v with
  | JUndefined => "undefined"
  | JNull => "null"
  | JBool true => "true"
  | JBool false => "false"
  | JStr s => s
  end.

(** [typeof v !== 'undefined'] *)
Definition is_defined (v : jsval) : bool :=
  match v with
  | JUndefined => false
  | _ => true
  end.

(** [key.startsWith(p)]: the search string is coerced with ToString. *)
Definition startsWith (p : jsval) (key : string) : bool :=
  String.prefix (ToString p) key.

(** [key.substring(n)] for a natural [n]: the string without its first [n]
    characters, empty when [n] exceeds the length. *)
Fixpoint substring_from (n : nat) (s : string) : string :=
  match n, s with
  | O, _ => s
  | S _, EmptyString => EmptyString
  | S n', String _ t => substring_from n' t
  end.

(** [this._keyPrefix && this._keyPrefix.length], then converted to an
    integer by [substring]: a non-empty string gives its length; the empty
    string, [null], [undefined] and [false] are falsy and convert to 0;
    [true.length] is [undefined], which converts to 0 as well. *)
Definition keyPrefixLength (p : jsval) : nat :=
  match p with
  | JStr s => String.length s
  | _ => 0
  end.

(** ** The ECMAScript Map *)

Module JsMap.

(** [[MapData]]: the entries in insertion order; [None] is an entry whose
    key and value were set to empty by [delete]. *)
Definition t : Type := list (option (string * jsval)).

(** [new Map()] *)
Definition empty : t := [].

(** The value of the first non-empty entry whose key is [k]. *)
Fixpoint find (k : string) (m : t) : option jsval :=
  match m with
  | [] => None
  | None :: m' => find k m'
  | Some (k', v) :: m' => if String.eqb k' k then Some v else find k m'
  end.

(** [Map.prototype.has] *)
Definition has (k : string) (m : t) : bool :=
  match find k m with
  | Some _ => true
  | None => false
  end.

(** [Map.prototype.get]: [undefined] for a key that is not there. *)
Definition get (k : string) (m : t) : jsval :=
  match find k m with
  | Some v => v
  | None => JUndefined
  end.

(** [Map.prototype.set]: an existing entry keeps its position and takes
    the new value; otherwise a new entry is appended. *)
Fixpoint set (k : string) (v : jsval) (m : t) : t :=
  match m with
  | [] => [Some (k, v)]
  | None :: m' => None :: set k v m'
  | Some (k', v') :: m' =>
      if String.eqb k' k then Some (k', v) :: m'
      else Some (k', v') :: set k v m'
  end.

(** [Map.prototype.delete]: the entry is emptied, not unlinked. *)
Fixpoint delete (k : string) (m : t) : t :=
  match m with
  | [] => []
  | None :: m' => None :: delete k m'
  | Some (k', v') :: m' =>
      if String.eqb k' k then None :: m'
      else Some (k', v') :: delete k m'
  end.

(** [Map.prototype.size]: the number of non-empty entries. *)
Fixpoint size (m : t) : nat :=
  match m with
  | [] => 0
  | None :: m' => size m'
  | Some _ :: m' => S (size m')
  end.

(** The keys a fresh [keys()] iterator yields when the map is not
    mutated meanwhile. *)
Fixpoint keys (m : t) : list string :=
  match m with
  | [] => []
  | None :: m' => keys m'
  | Some (k, _) :: m' => k :: keys m'
  end.

(** What a [for...in] statement enumerates on the object [m.keys()]
    returns: a Map Iterator has no own properties, and [next] and the
    other properties of its prototypes are not enumerable (or are keyed
    by symbols), so there is nothing to enumerate, whatever the map
    holds. *)
Definition for_in_keys_iterator (m : t) : list string := [].

End JsMap.

(** ** The Storage class *)

(** The calls to [AsyncStorage], as a recording backend would see them. *)
Inductive BackendCall : Type :=
| CallGetAllKeys
| CallMultiGet (keys : list string)
| CallSetItem (key value : string)
| CallRemoveItem (key : string).

(** The promise chain of the constructor: nothing was started, or
    [getAllKeys()] is pending, or [multiGet(keys)] is pending, or the chain
    is over (a callback ran to its end, or a promise was rejected and its
    [then] callback is never called). *)
Inductive Task : Type :=
| NoTask
| AwaitingKeys
| AwaitingValues (keys : list string)
| TaskOver.

Record Storage : Type := mkStorage {
  _items : JsMap.t;
  _keyPrefix : jsval;
  task : Task;
  calls : list BackendCall
}.

(** [`${String(this._keyPrefix)}${key}`] *)
Definition backendKey (p : jsval) (key : string) : string :=
  (ToString p ++ key)%string.

(** [constructor(keyPrefix)] up to the point where it returns: the
    callbacks run later, see [onGetAllKeys] and [onMultiGet]. *)
Definition constructor (keyPrefix : jsval) : Storage :=
  if is_defined keyPrefix
  then mkStorage JsMap.empty keyPrefix AwaitingKeys [CallGetAllKeys]
  else mkStorage JsMap.empty keyPrefix NoTask [].

(** [getItem(key)] *)
Definition getItem (key : string) (s : Storage) : jsval :=
  if JsMap.has key (_items s) then JsMap.get key (_items s) else JNull.

(** The loop of [key(n)]: [i] counts the properties visited so far. *)
Fixpoint key_loop (props : list string) (i n : Z) : jsval :=
  match props with
  | [] => JUndefined
  | p :: rest => if Z.eqb i n then JStr p else key_loop rest (i + 1)%Z n
  end.

(** [key(n)]: a [for...in] over [this._items.keys()]. *)
Definition key (n : Z) (s : Storage) : jsval :=
  key_loop (JsMap.for_in_keys_iterator (_items s)) 0%Z n.

(** [get length()] *)
Definition length (s : Storage) : nat :=
  JsMap.size (_items s).

(** [removeItem(key)] *)
Definition removeItem (key : string) (s : Storage) : Storage :=
  let items := JsMap.delete key (_items s) in
  if is_defined (_keyPrefix s)
  then mkStorage items (_keyPrefix s) (task s)
         (calls s ++ [CallRemoveItem (backendKey (_keyPrefix s) key)])
  else mkStorage items (_keyPrefix s) (task s) (calls s).

(** [setItem(key, value)] *)
Definition setItem (key : string) (value : jsval) (s : Storage) : Storage :=
  let value := ToString value in
  let items := JsMap.set key (JStr value) (_items s) in
  if is_defined (_keyPrefix s)
  then mkStorage items (_keyPrefix s) (task s)
         (calls s ++ [CallSetItem (backendKey (_keyPrefix s) key) value])
  else mkStorage items (_keyPrefix s) (task s) (calls s).

(** The loop of [clear()]: a live iterator over [this._items.keys()].  The
    iterator holds an index into the entries; at each turn it reads the
    current list of entries, stops when the index is past its end, skips an
    empty entry, and runs the body on the key of a non-empty one.
    [removeItem] never changes the number of entries, so [fuel] equal to
    that number lets the iterator reach the end; see [clear_loop_fuel]. *)
Fixpoint clear_loop (fuel index : nat) (s : Storage) : Storage :=
  match fuel with
  | O => s
  | S fuel' =>
      match nth_error (_items s) index with
      | None => s
      | Some None => clear_loop fuel' (S index) s
      | Some (Some (k, _)) => clear_loop fuel' (S index) (removeItem k s)
      end
  end.

(** [clear()] *)
Definition clear (s : Storage) : Storage :=
  clear_loop (List.length (_items s)) 0 s.

(** ** The constructor's promise callbacks *)

(** The callback of [AsyncStorage.getAllKeys().then(...)]: keeps the keys
    that start with the prefix and asks [multiGet] for them. *)
Definition onGetAllKeys (allKeys : list string) (s : Storage) : Storage :=
  let keys := filter (startsWith (_keyPrefix s)) allKeys in
  mkStorage (_items s) (_keyPrefix s) (AwaitingValues keys)
    (calls s ++ [CallMultiGet keys]).

(** The [for (let [ key, value ] of result)] loop: the prefix length is cut
    off the key, and the value is stored unless the key is there already. *)
Fixpoint merge_loop (n : nat) (result : list (string * jsval))
    (items : JsMap.t) : JsMap.t :=
  match result with
  | [] => items
  | (key, value) :: rest =>
      let key := substring_from n key in
      if negb (JsMap.has key items)
      then merge_loop n rest (JsMap.set key value items)
      else merge_loop n rest items
  end.

(** The callback of [AsyncStorage.multiGet(keys).then(...)]. *)
Definition onMultiGet (result : list (string * jsval)) (s : Storage)
    : Storage :=
  mkStorage (merge_loop (keyPrefixLength (_keyPrefix s)) result (_items s))
    (_keyPrefix s) TaskOver (calls s).

(** A promise was rejected: its [then] callback does not run, and the
    source registers no rejection handler. *)
Definition onRejected (s : Storage) : Storage :=
  mkStorage (_items s) (_keyPrefix s) TaskOver (calls s).

(** ** The event loop *)

(** The caller's operations. *)
Inductive op : Type :=
| OpClear
| OpGetItem (key : string)
| OpKey (n : Z)
| OpLength
| OpRemoveItem (key : string)
| OpSetItem (key : string) (value : jsval).

(** How an operation completes: it returns a value, it returns a number
    ([length]), or it throws. *)
Inductive completion : Type :=
| Return (v : jsval)
| ReturnNumber (n : nat)
| Throw (v : jsval).

Definition exec (o : op) (s : Storage) : Storage * completion :=
  match o with
  | OpClear => (clear s, Return JUndefined)
  | OpGetItem k => (s, Return (getItem k s))
  | OpKey n => (s, Return (key n s))
  | OpLength => (s, ReturnNumber (length s))
  | OpRemoveItem k => (removeItem k s, Return JUndefined)
  | OpSetItem k v => (setItem k v s, Return JUndefined)
  end.

(** What the event loop runs, one job at a time: a call by the user of the
    storage, or the settlement of a promise of [AsyncStorage].  [None] is a
    rejection.  [PersistSettled] is the settlement of a promise returned by
    [AsyncStorage.setItem] or [AsyncStorage.removeItem]. *)
Inductive event : Type :=
| Invoke (o : op)
| GetAllKeysSettled (r : option (list string))
| MultiGetSettled (r : option (list (string * jsval)))
| PersistSettled (ok : bool).

Definition step (e : event) (s : Storage) : Storage :=
  match e with
  | Invoke o => fst (exec o s)
  | GetAllKeysSettled r =>
      match task s with
      | AwaitingKeys =>
          match r with
          | Some allKeys => onGetAllKeys allKeys s
          | None => onRejected s
          end
      | _ => s
      end
  | MultiGetSettled r =>
      match task s with
      | AwaitingValues _ =>
          match r with
          | Some result => onMultiGet result s
          | None => onRejected s
          end
      | _ => s
      end
  | PersistSettled _ => s
  end.

Definition run (t : list event) (s : Storage) : Storage :=
  fold_left (fun s e => step e s) t s.

(** The completions of the caller's operations, in order. *)
Fixpoint outcomes (t : list event) (s : Storage) : list completion :=
  match t with
  | [] => []
  | Invoke o :: t' => snd (exec o s) :: outcomes t' (step (Invoke o) s)
  | e :: t' => outcomes t' (step e s)
  end.

(** The caller's operations of a trace. *)
Fixpoint invoked (t : list event) : list op :=
  match t with
  | [] => []
  | Invoke o :: t' => o :: invoked t'
  | _ :: t' => invoked t'
  end.

(** ** A well-behaved backend *)

(** Modelled from the spec: the backend primitives [enumerateKeys] and
    [multiGet] of React Native's [AsyncStorage], which is not part of the
    sources.  The backend holds string pairs; [getAllKeys] lists the keys,
    [multiGet] answers each requested key with its value, [null] for a key
    that is not stored. *)
Definition Backend : Type := list (string * string).

Fixpoint backend_get (k : string) (b : Backend) : option string :=
  match b with
  | [] => None
  | (k', v) :: b' => if String.eqb k' k then Some v else backend_get k b'
  end.

Definition backend_getAllKeys (b : Backend) : list string :=
  map fst b.

Definition backend_multiGet (b : Backend) (keys : list string)
    : list (string * jsval) :=
  map (fun k => (k, match backend_get k b with
                    | Some v => JStr v
                    | None => JNull
                    end)) keys.

(** The whole reconciliation against [b], with nothing in between: the
    keys settle, then the values asked for settle. *)
Definition reconcile (b : Backend) (s : Storage) : Storage :=
  let s1 := step (GetAllKeysSettled (Some (backend_getAllKeys b))) s in
  match task s1 with
  | AwaitingValues keys =>
      step (MultiGetSettled (Some (backend_multiGet b keys))) s1
  | _ => s1
  end.

(** ** What the caller's operations say about a key *)

(** The word of one operation on key [k]: [Some (Some v)] when it writes
    [v] there, [Some None] when it removes the key, [None] when it leaves
    the key alone.  [clear] removes every key. *)
Definition touch (o : op) (k : string) : option (option jsval) :=
  match o with
  | OpSetItem k' v =>
      if String.eqb k' k then Some (Some (JStr (ToString v))) else None
  | OpRemoveItem k' => if String.eqb k' k then Some None else None
  | OpClear => Some None
  | OpGetItem _ | OpKey _ | OpLength => None
  end.

(** The last word of a sequence of operations on [k]: that of the latest
    operation that touches [k]. *)
Fixpoint caller_view (ops : list op) (k : string)
    : option (option jsval) :=
  match ops with
  | [] => None
  | o :: rest =>
      match caller_view rest k with
      | Some w => Some w
      | None => touch o k
      end
  end.

(** The entries a [multiGet] result offers to the merge: its pairs under
    the keys the loop computes. *)
Definition stripped (n : nat) (result : list (string * jsval))
    : list (string * jsval) :=
  map (fun kv => (substring_from n (fst kv), snd kv)) result.

Fixpoint assoc (k : string) (l : list (string * jsval)) : option jsval :=
  match l with
  | [] => None
  | (k', v) :: l' => if String.eqb k' k then Some v else assoc k l'
  end.

(** The union in which every operation of the caller, removals included,
    overrides the merged entries whenever it was issued. *)
Definition union_caller_first (ops : list op)
    (merged : list (string * jsval)) (k : string) : option jsval :=
  match caller_view ops k with
  | Some w => w
  | None => assoc k merged
  end.

(** The union the merge loop builds: the operations issued after the merge
    override everything; of those issued before it, a write whose key is
    still there overrides the merged entry, and a removal does not. *)
Definition union_present_first (before after : list op)
    (merged : list (string * jsval)) (k : string) : option jsval :=
  match caller_view after k with
  | Some w => w
  | None =>
      match caller_view before k with
      | Some (Some v) => Some v
      | _ => assoc k merged
      end
  end.

(** ** Traces *)

Definition is_merge (e : event) : bool :=
  match e with
  | MultiGetSettled (Some _) => true
  | _ => false
  end.

Definition is_rejection (e : event) : bool :=
  match e with
  | GetAllKeysSettled None | MultiGetSettled None | PersistSettled false =>
      true
  | _ => false
  end.

Definition is_keys_settlement (e : event) : bool :=
  match e with
  | GetAllKeysSettled _ => true
  | _ => false
  end.

Definition is_values_settlement (e : event) : bool :=
  match e with
  | MultiGetSettled _ => true
  | _ => false
  end.

(** The trace without the rejections: what the backend did successfully. *)
Definition successful_only (t : list event) : list event :=
  filter (fun e => negb (is_rejection e)) t.

(** A promise settles once: the constructor's chain holds one
    [getAllKeys] promise and one [multiGet] promise. *)
Definition settles_once (t : list event) : Prop :=
  List.length (filter is_keys_settlement t) <= 1 /\
  List.length (filter is_values_settlement t) <= 1.

(** The event makes the merge loop run in state [s]: it brings the result
    of the [multiGet] the instance is waiting for. *)
Definition merges (e : event) (s : Storage) : bool :=
  is_merge e &&
  match task s with
  | AwaitingValues _ => true
  | _ => false
  end.

(** The merge loop runs somewhere in the trace [t] started in [s]. *)
Fixpoint merge_runs (t : list event) (s : Storage) : bool :=
  match t with
  | [] => false
  | e :: t' => merges e s || merge_runs t' (step e s)
  end.

(** Two states with the same fields and the same recorded calls; the
    promise chains may stand differently. *)
Definition same_memory (s s' : Storage) : Prop :=
  _items s = _items s' /\ _keyPrefix s = _keyPrefix s' /\
  calls s = calls s'.

(** How the state [s] reached with the rejections relates to the state
    [s'] reached without them, [t] being what remains of the trace: the
    chains stand alike, or that of [s] ended on a rejection while that of
    [s'] still waits for a promise which, settled already, does not settle
    again in [t]. *)
Definition lagging (t : list event) (s s' : Storage) : Prop :=
  (task s = task s' /\ settles_once t) \/
  (task s = TaskOver /\ task s' = AwaitingKeys /\
   filter is_keys_settlement t = []) \/
  (task s = TaskOver /\ (exists ks, task s' = AwaitingValues ks) /\
   filter is_values_settlement t = []).

(** The entries of a map are in use at most once per key. *)
Definition wf (s : Storage) : Prop :=
  NoDup (JsMap.keys (_items s)).

(** ** The backend executing the persistence calls *)

(** Modelled from the spec: the backend primitives [removeOne] and [setOne]
    of React Native's [AsyncStorage], which is not part of the sources.
    [removeItem] drops the pair of a key, [setItem] replaces it. *)
Fixpoint backend_remove (k : string) (b : Backend) : Backend :=
  match b with
  | [] => []
  | (k', v) :: b' =>
      if String.eqb k' k then backend_remove k b'
      else (k', v) :: backend_remove k b'
  end.

Definition backend_set (k v : string) (b : Backend) : Backend :=
  (k, v) :: backend_remove k b.

(** The backend serving one recorded call; the two reading calls leave it
    as it is. *)
Definition backend_apply (c : BackendCall) (b : Backend) : Backend :=
  match c with
  | CallSetItem k v => backend_set k v b
  | CallRemoveItem k => backend_remove k b
  | CallGetAllKeys | CallMultiGet _ => b
  end.

(** The backend after it has served the recorded calls in order. *)
Definition backend_replay (cs : list BackendCall) (b : Backend) : Backend :=
  fold_left (fun b c => backend_apply c b) cs b.

(** The backend [b] holds the items of [s], each under its backend key. *)
Definition mirrors (b : Backend) (s : Storage) : Prop :=
  forall k : string,
    JsMap.find k (_items s) =
    option_map JStr (backend_get (backendKey (_keyPrefix s) k) b).

Definition is_getAllKeys_call (c : BackendCall) : bool :=
  match c with
  | CallGetAllKeys => true
  | _ => false
  end.

Definition is_multiGet_call (c : BackendCall) : bool :=
  match c with
  | CallMultiGet _ => true
  | _ => false
  end.

Definition is_persistence_call (c : BackendCall) : bool :=
  match c with
  | CallSetItem _ _ | CallRemoveItem _ => true
  | _ => false
  end.

(** [typeof v === 'string'] *)
Definition is_string (v : jsval) : bool :=
  match v with
  | JStr _ => true
  | _ => false
  end.

(** The event brings no value that is not a string. *)
Definition string_results (e : event) : bool :=
  match e with
  | MultiGetSettled (Some r) => forallb (fun kv => is_string (snd kv)) r
  | _ => true
  end.

(** Every entry in use holds a string. *)
Definition string_valued (m : JsMap.t) : Prop :=
  Forall (fun e => match e with
                   | Some (_, v) => is_string v = true
                   | None => True
                   end) m.

(** * Properties *)

(** ** The Map operations *)

Lemma find_set_same (k : string) (v : jsval) (m : JsMap.t) :
  JsMap.find k (JsMap.set k v m) = Some v.
Proof.
  induction m as [|[[k' v']|] m IH]; simpl.
  - now rewrite String.eqb_refl.
  - destruct (String.eqb k' k) eqn:E; simpl; rewrite E; auto.
  - exact IH.
Qed.

Lemma find_set_other (k k' : string) (v : jsval) (m : JsMap.t) :
  k' <> k -> JsMap.find k (JsMap.set k' v m) = JsMap.find k m.
Proof.
  intros Hne.
  induction m as [|[[k0 v0]|] m IH]; simpl.
  - destruct (String.eqb_spec k' k); congruence.
  - destruct (String.eqb_spec k0 k') as [->|Hk]; simpl.
    + destruct (String.eqb_spec k' k); congruence.
    + now rewrite IH.
  - exact IH.
Qed.

Lemma find_delete_other (k k' : string) (m : JsMap.t) :
  k' <> k -> JsMap.find k (JsMap.delete k' m) = JsMap.find k m.
Proof.
  intros Hne.
  induction m as [|[[k0 v0]|] m IH]; simpl; auto.
  destruct (String.eqb_spec k0 k') as [->|Hk]; simpl.
  - destruct (String.eqb_spec k' k); congruence.
  - now rewrite IH.
Qed.

Lemma find_none_keys (k : string) (m : JsMap.t) :
  JsMap.find k m = None <-> ~ In k (JsMap.keys m).
Proof.
  induction m as [|[[k0 v0]|] m IH]; simpl.
  - tauto.
  - destruct (String.eqb_spec k0 k) as [->|Hk].
    + split; [discriminate | intros H; exfalso; auto].
    + rewrite IH. tauto.
  - exact IH.
Qed.

Lemma find_delete_same (k : string) (m : JsMap.t) :
  NoDup (JsMap.keys m) -> JsMap.find k (JsMap.delete k m) = None.
Proof.
  induction m as [|[[k0 v0]|] m IH]; simpl; intros Hnd; auto.
  inversion Hnd as [|? ? Hnotin Hnd']; subst.
  destruct (String.eqb_spec k0 k) as [->|Hk]; simpl.
  - now apply find_none_keys.
  - destruct (String.eqb_spec k0 k); [contradiction | auto].
Qed.

Lemma keys_delete_incl (k : string) (m : JsMap.t) :
  incl (JsMap.keys (JsMap.delete k m)) (JsMap.keys m).
Proof.
  induction m as [|[[k0 v0]|] m IH]; simpl; auto using incl_refl.
  destruct (String.eqb k0 k); simpl.
  - apply incl_tl, incl_refl.
  - intros x [->|Hx]; [now left | right; auto].
Qed.

Lemma keys_delete_NoDup (k : string) (m : JsMap.t) :
  NoDup (JsMap.keys m) -> NoDup (JsMap.keys (JsMap.delete k m)).
Proof.
  induction m as [|[[k0 v0]|] m IH]; simpl; intros Hnd; auto.
  inversion Hnd as [|? ? Hnotin Hnd']; subst.
  destruct (String.eqb k0 k); simpl; auto.
  constructor; auto.
  intros Hin. apply Hnotin. now apply (keys_delete_incl k m).
Qed.

Lemma keys_set (k : string) (v : jsval) (m : JsMap.t) :
  JsMap.keys (JsMap.set k v m) =
  if JsMap.has k m then JsMap.keys m else (JsMap.keys m ++ [k])%list.
Proof.
  unfold JsMap.has.
  induction m as [|[[k0 v0]|] m IH]; simpl; auto.
  destruct (String.eqb_spec k0 k) as [->|Hk]; simpl; auto.
  rewrite IH. now destruct (JsMap.find k m).
Qed.

Lemma keys_set_NoDup (k : string) (v : jsval) (m : JsMap.t) :
  NoDup (JsMap.keys m) -> NoDup (JsMap.keys (JsMap.set k v m)).
Proof.
  intros Hnd. rewrite keys_set. unfold JsMap.has.
  destruct (JsMap.find k m) eqn:E; auto.
  apply find_none_keys in E.
  apply NoDup_app; repeat split; auto.
  - constructor; [simpl; tauto | constructor].
  - intros x Hx [<-|[]]. contradiction.
Qed.

Lemma size_keys (m : JsMap.t) :
  JsMap.size m = List.length (JsMap.keys m).
Proof.
  induction m as [|[[k0 v0]|] m IH]; simpl; auto.
Qed.

Lemma delete_first_used (i : nat) (k : string) (v : jsval)
    (rest : JsMap.t) :
  JsMap.delete k (repeat None i ++ Some (k, v) :: rest) =
  (repeat None i ++ None :: rest)%list.
Proof.
  induction i as [|i IH]; simpl.
  - now rewrite String.eqb_refl.
  - now rewrite IH.
Qed.

Lemma size_all_empty (n : nat) : JsMap.size (repeat None n) = 0.
Proof. induction n; simpl; auto. Qed.

Lemma find_all_empty (k : string) (n : nat) :
  JsMap.find k (repeat None n) = None.
Proof. induction n; simpl; auto. Qed.

Lemma empty_slot_shift (i : nat) (rest : JsMap.t) :
  (repeat None i ++ None :: rest)%list = (repeat None (S i) ++ rest)%list.
Proof.
  change (None :: rest) with ([None] ++ rest)%list.
  rewrite app_assoc, <- repeat_cons. reflexivity.
Qed.

(** ** The methods, one at a time *)

Lemma removeItem_items (k : string) (s : Storage) :
  _items (removeItem k s) = JsMap.delete k (_items s).
Proof. unfold removeItem. now destruct (is_defined (_keyPrefix s)). Qed.

Lemma removeItem_keyPrefix (k : string) (s : Storage) :
  _keyPrefix (removeItem k s) = _keyPrefix s.
Proof. unfold removeItem. now destruct (is_defined (_keyPrefix s)). Qed.

Lemma removeItem_task (k : string) (s : Storage) :
  task (removeItem k s) = task s.
Proof. unfold removeItem. now destruct (is_defined (_keyPrefix s)). Qed.

Lemma setItem_items (k : string) (v : jsval) (s : Storage) :
  _items (setItem k v s) = JsMap.set k (JStr (ToString v)) (_items s).
Proof. unfold setItem. now destruct (is_defined (_keyPrefix s)). Qed.

Lemma setItem_keyPrefix (k : string) (v : jsval) (s : Storage) :
  _keyPrefix (setItem k v s) = _keyPrefix s.
Proof. unfold setItem. now destruct (is_defined (_keyPrefix s)). Qed.

Lemma setItem_task (k : string) (v : jsval) (s : Storage) :
  task (setItem k v s) = task s.
Proof. unfold setItem. now destruct (is_defined (_keyPrefix s)). Qed.

Lemma getItem_find (k : string) (s : Storage) :
  getItem k s = match JsMap.find k (_items s) with
                | Some v => v
                | None => JNull
                end.
Proof.
  unfold getItem, JsMap.has, JsMap.get.
  now destruct (JsMap.find k (_items s)).
Qed.

Lemma clear_loop_keyPrefix (fuel i : nat) (s : Storage) :
  _keyPrefix (clear_loop fuel i s) = _keyPrefix s.
Proof.
  revert i s. induction fuel as [|fuel IH]; intros i s; simpl; auto.
  destruct (nth_error (_items s) i) as [[[k v]|]|]; auto.
  now rewrite IH, removeItem_keyPrefix.
Qed.

Lemma clear_loop_task (fuel i : nat) (s : Storage) :
  task (clear_loop fuel i s) = task s.
Proof.
  revert i s. induction fuel as [|fuel IH]; intros i s; simpl; auto.
  destruct (nth_error (_items s) i) as [[[k v]|]|]; auto.
  now rewrite IH, removeItem_task.
Qed.

Lemma nth_error_after_empty (i : nat) (rest : JsMap.t) :
  nth_error (repeat None i ++ rest) i = nth_error rest 0.
Proof.
  rewrite nth_error_app2; rewrite repeat_length; [|lia].
  now rewrite Nat.sub_diag.
Qed.

(** The iterator of [clear] walks the entries from slot [i] on, with the
    slots before it empty already, and leaves every slot empty. *)
Lemma clear_loop_empties (rest : JsMap.t) :
  forall (fuel i : nat) (s : Storage),
    _items s = (repeat None i ++ rest)%list ->
    List.length rest <= fuel ->
    _items (clear_loop fuel i s) = repeat None (i + List.length rest).
Proof.
  induction rest as [|e rest IH]; intros fuel i s Hs Hfuel.
  - rewrite app_nil_r in Hs. simpl. rewrite Nat.add_0_r.
    destruct fuel as [|fuel]; simpl; auto.
    replace (nth_error (_items s) i) with (@None (option (string * jsval))).
    + exact Hs.
    + rewrite Hs. symmetry. apply nth_error_None. now rewrite repeat_length.
  - destruct fuel as [|fuel]; simpl in Hfuel; [lia|]. simpl clear_loop.
    rewrite Hs at 1. rewrite nth_error_after_empty. simpl nth_error.
    replace (i + List.length (e :: rest)) with (S i + List.length rest)
      by (simpl; lia).
    destruct e as [[k v]|].
    + apply IH; [|lia].
      rewrite removeItem_items, Hs, delete_first_used.
      apply empty_slot_shift.
    + apply IH; [|lia]. rewrite Hs. apply empty_slot_shift.
Qed.

Lemma clear_items (s : Storage) :
  _items (clear s) = repeat None (List.length (_items s)).
Proof.
  unfold clear.
  apply (clear_loop_empties (_items s) (List.length (_items s)) 0 s);
    auto.
Qed.

(** More fuel than there are entries changes nothing: the iterator of
    [clear] stops by running off the end of the entries. *)
Lemma clear_loop_fuel (fuel : nat) (s : Storage) :
  List.length (_items s) <= fuel -> clear_loop fuel 0 s = clear s.
Proof.
  unfold clear.
  assert (G : forall n f i s', List.length (_items s') <= i + n -> n <= f ->
             clear_loop f i s' = clear_loop n i s').
  { clear. induction n as [|n IH]; intros f i s' Hlen Hf.
    - destruct f as [|f]; simpl; auto.
      replace (nth_error (_items s') i)
        with (@None (option (string * jsval))); auto.
      symmetry. apply nth_error_None. lia.
    - destruct f as [|f]; [lia|]. simpl.
      destruct (nth_error (_items s') i) as [[[k v]|]|]; auto.
      + apply IH; [|lia].
        rewrite removeItem_items.
        assert (L : forall m, List.length (JsMap.delete k m) = List.length m).
        { induction m as [|[[k0 v0]|] m IHm]; simpl; auto.
          destruct (String.eqb k0 k); simpl; auto. }
        rewrite L. lia.
      + apply IH; lia. }
  intros H. apply G; simpl; auto.
Qed.

(** ** Write, read, clear, key *)

(** C3. Write-then-read: [setItem(k, v)] followed at once by [getItem(k)]
    returns [String(v)], in every state of the instance: whatever the items
    hold, whatever the prefix is, and wherever the constructor's promise
    chain stands. *)
Theorem setItem_then_getItem (k : string) (v : jsval) (s : Storage) :
  getItem k (setItem k v s) = JStr (ToString v).
Proof.
  now rewrite getItem_find, setItem_items, find_set_same.
Qed.

(** C6. [clear()] empties the storage: in every state, after [clear()] the
    length is 0 and [getItem] returns [null] for every key, although the
    loop deletes from the map its iterator walks. *)
Theorem clear_empties (s : Storage) :
  length (clear s) = 0 /\ forall k : string, getItem k (clear s) = JNull.
Proof.
  split.
  - unfold length. rewrite clear_items. apply size_all_empty.
  - intros k. now rewrite getItem_find, clear_items, find_all_empty.
Qed.

(** C5. [key(n)] enumerates the Map Iterator with [for...in], which visits
    nothing: it returns [undefined] for every [n] in every state, also when
    [n] is the position of a key.  After [setItem("a", "1")] on a new
    instance, [key(0)] is [undefined] although the storage holds one key,
    ["a"], at position 0. *)
Theorem key_returns_undefined :
  (forall (n : Z) (s : Storage), key n s = JUndefined) /\
  (let s := setItem "a" (JStr "1") (constructor JUndefined) in
   length s = 1 /\ JsMap.keys (_items s) = ["a"] /\
   key 0 s <> JStr "a").
Proof.
  split.
  - intros n s. reflexivity.
  - simpl. repeat split; try reflexivity. discriminate.
Qed.

(** ** Invariants of the event loop *)

Lemma exec_keyPrefix (o : op) (s : Storage) :
  _keyPrefix (fst (exec o s)) = _keyPrefix s.
Proof.
  destruct o; simpl; auto.
  - apply clear_loop_keyPrefix.
  - apply removeItem_keyPrefix.
  - apply setItem_keyPrefix.
Qed.

Lemma exec_task (o : op) (s : Storage) :
  task (fst (exec o s)) = task s.
Proof.
  destruct o; simpl; auto.
  - apply clear_loop_task.
  - apply removeItem_task.
  - apply setItem_task.
Qed.

Lemma step_keyPrefix (e : event) (s : Storage) :
  _keyPrefix (step e s) = _keyPrefix s.
Proof.
  destruct e as [o|[ks|]|[r|]|ok]; simpl;
    try apply exec_keyPrefix; destruct (task s); auto.
Qed.

Lemma run_cons (e : event) (t : list event) (s : Storage) :
  run (e :: t) s = run t (step e s).
Proof. reflexivity. Qed.

Lemma run_app (t1 t2 : list event) (s : Storage) :
  run (t1 ++ t2) s = run t2 (run t1 s).
Proof. unfold run. apply fold_left_app. Qed.

Lemma run_keyPrefix (t : list event) (s : Storage) :
  _keyPrefix (run t s) = _keyPrefix s.
Proof.
  revert s. induction t as [|e t IH]; intros s; auto.
  now rewrite run_cons, IH, step_keyPrefix.
Qed.

Lemma clear_loop_calls_no_prefix (fuel i : nat) (s : Storage) :
  is_defined (_keyPrefix s) = false ->
  calls (clear_loop fuel i s) = calls s.
Proof.
  revert i s. induction fuel as [|fuel IH]; intros i s Hp; simpl; auto.
  destruct (nth_error (_items s) i) as [[[k v]|]|]; auto.
  rewrite IH by now rewrite removeItem_keyPrefix.
  unfold removeItem. now rewrite Hp.
Qed.

Lemma step_no_prefix (e : event) (s : Storage) :
  _keyPrefix s = JUndefined -> task s = NoTask -> calls s = [] ->
  task (step e s) = NoTask /\ calls (step e s) = [].
Proof.
  intros Hp Ht Hc.
  destruct e as [o|r|r|ok]; simpl; try rewrite Ht; auto.
  split; [now rewrite exec_task|].
  destruct o; simpl; auto.
  - unfold clear. rewrite clear_loop_calls_no_prefix; auto. now rewrite Hp.
  - unfold removeItem. now rewrite Hp.
  - unfold setItem. now rewrite Hp.
Qed.

(** C7. No-prefix isolation: an instance constructed with [undefined] as
    its prefix calls no primitive of the backend, neither at construction
    nor in any sequence of events afterwards: the record of backend calls
    stays empty and no promise chain is ever started. *)
Theorem no_prefix_no_backend_call (t : list event) :
  calls (constructor JUndefined) = [] /\
  calls (run t (constructor JUndefined)) = [] /\
  task (run t (constructor JUndefined)) = NoTask.
Proof.
  split; [reflexivity|].
  assert (G : forall s, _keyPrefix s = JUndefined -> task s = NoTask ->
                        calls s = [] ->
                        calls (run t s) = [] /\ task (run t s) = NoTask).
  { induction t as [|e t IH]; intros s Hp Ht Hc; [now split|].
    rewrite run_cons.
    destruct (step_no_prefix e s Hp Ht Hc) as [Ht' Hc'].
    apply IH; auto. now rewrite step_keyPrefix. }
  now apply G.
Qed.

Lemma run_invocations_task (ops : list op) (s : Storage) :
  task (run (map Invoke ops) s) = task s.
Proof.
  revert s. induction ops as [|o ops IH]; intros s; auto.
  simpl map. rewrite run_cons, IH. apply exec_task.
Qed.

(** C9. A [null] prefix counts as a prefix: the constructor starts the
    reconciliation ([getAllKeys] is called and awaited); when the keys
    arrive, after any calls by the user, they are filtered on the string
    ["null"] and [multiGet] is called; and in every state the instance
    reaches, [setItem] and [removeItem] call the backend with ["null"] in
    front of the key. *)
Theorem null_prefix_is_a_prefix :
  calls (constructor JNull) = [CallGetAllKeys] /\
  task (constructor JNull) = AwaitingKeys /\
  (forall (ops : list op) (allKeys : list string),
      let s := run (map Invoke ops) (constructor JNull) in
      let keys := filter (String.prefix "null") allKeys in
      task (step (GetAllKeysSettled (Some allKeys)) s) = AwaitingValues keys /\
      calls (step (GetAllKeysSettled (Some allKeys)) s) =
        calls s ++ [CallMultiGet keys]) /\
  (forall (t : list event) (k : string) (v : jsval),
      let s := run t (constructor JNull) in
      calls (setItem k v s) =
        calls s ++ [CallSetItem ("null" ++ k)%string (ToString v)]) /\
  (forall (t : list event) (k : string),
      let s := run t (constructor JNull) in
      calls (removeItem k s) =
        calls s ++ [CallRemoveItem ("null" ++ k)%string]).
Proof.
  split; [reflexivity|]. split; [reflexivity|]. split; [|split].
  - intros ops allKeys s keys.
    assert (Ht : task s = AwaitingKeys)
      by (unfold s; now rewrite run_invocations_task).
    assert (Hp : _keyPrefix s = JNull)
      by (unfold s; now rewrite run_keyPrefix).
    simpl. rewrite Ht. unfold onGetAllKeys. simpl. rewrite Hp. now split.
  - intros t k v s.
    assert (Hp : _keyPrefix s = JNull)
      by (unfold s; now rewrite run_keyPrefix).
    unfold setItem. now rewrite Hp.
  - intros t k s.
    assert (Hp : _keyPrefix s = JNull)
      by (unfold s; now rewrite run_keyPrefix).
    unfold removeItem. now rewrite Hp.
Qed.

(** ** The merge loop *)

Lemma merge_loop_app (n : nat) (r1 r2 : list (string * jsval))
    (m : JsMap.t) :
  merge_loop n (r1 ++ r2) m = merge_loop n r2 (merge_loop n r1 m).
Proof.
  revert m. induction r1 as [|[pk v] r1 IH]; intros m; simpl; auto.
  destruct (JsMap.has (substring_from n pk) m); simpl; apply IH.
Qed.

(** Insert-if-absent: a key of the map keeps its value, another key takes
    the first value the result offers for it. *)
Lemma merge_loop_find (n : nat) (r : list (string * jsval)) (k : string) :
  forall m : JsMap.t,
    JsMap.find k (merge_loop n r m) =
    match JsMap.find k m with
    | Some v => Some v
    | None => assoc k (stripped n r)
    end.
Proof.
  induction r as [|[pk v] r IH]; intros m; simpl.
  - now destruct (JsMap.find k m).
  - unfold JsMap.has.
    destruct (JsMap.find (substring_from n pk) m) eqn:E; simpl; rewrite IH.
    + destruct (String.eqb_spec (substring_from n pk) k) as [<-|Hk]; auto.
      now rewrite E.
    + destruct (String.eqb_spec (substring_from n pk) k) as [<-|Hk].
      * now rewrite find_set_same, E.
      * now rewrite find_set_other.
Qed.

Lemma merge_loop_NoDup (n : nat) (r : list (string * jsval)) :
  forall m : JsMap.t,
    NoDup (JsMap.keys m) -> NoDup (JsMap.keys (merge_loop n r m)).
Proof.
  induction r as [|[pk v] r IH]; intros m Hm; simpl; auto.
  destruct (JsMap.has (substring_from n pk) m); simpl; auto.
  apply IH. now apply keys_set_NoDup.
Qed.

Lemma size_set (k : string) (v : jsval) (m : JsMap.t) :
  JsMap.size (JsMap.set k v m) =
  if JsMap.has k m then JsMap.size m else S (JsMap.size m).
Proof.
  rewrite !size_keys, keys_set.
  destruct (JsMap.has k m); auto.
  rewrite length_app. simpl. lia.
Qed.

Lemma merge_loop_size (n : nat) (r : list (string * jsval)) :
  forall m : JsMap.t, JsMap.size m <= JsMap.size (merge_loop n r m).
Proof.
  induction r as [|[pk v] r IH]; intros m; simpl; auto.
  destruct (JsMap.has (substring_from n pk) m) eqn:E; simpl; auto.
  specialize (IH (JsMap.set (substring_from n pk) v m)).
  rewrite size_set, E in IH. lia.
Qed.

(** ** Well-formedness of the reachable states *)

Lemma wf_constructor (p : jsval) : wf (constructor p).
Proof.
  unfold wf, constructor. destruct (is_defined p); simpl; constructor.
Qed.

Lemma keys_all_empty (n : nat) : JsMap.keys (repeat None n) = [].
Proof. induction n; simpl; auto. Qed.

Lemma exec_wf (o : op) (s : Storage) : wf s -> wf (fst (exec o s)).
Proof.
  unfold wf. intros H. destruct o; simpl; auto.
  - rewrite clear_items, keys_all_empty. constructor.
  - rewrite removeItem_items. now apply keys_delete_NoDup.
  - rewrite setItem_items. now apply keys_set_NoDup.
Qed.

Lemma step_wf (e : event) (s : Storage) : wf s -> wf (step e s).
Proof.
  intros H. destruct e as [o|[ks|]|[r|]|ok]; simpl;
    try (now apply exec_wf); destruct (task s); auto.
  unfold wf. simpl. now apply merge_loop_NoDup.
Qed.

Lemma run_wf (t : list event) (s : Storage) : wf s -> wf (run t s).
Proof.
  revert s. induction t as [|e t IH]; intros s H; auto.
  rewrite run_cons. apply IH. now apply step_wf.
Qed.

(** ** The caller's operations, read key by key *)

Lemma caller_view_app (a b : list op) (k : string) :
  caller_view (a ++ b) k =
  match caller_view b k with
  | Some w => Some w
  | None => caller_view a k
  end.
Proof.
  induction a as [|o a IH]; simpl.
  - now destruct (caller_view b k).
  - rewrite IH. now destruct (caller_view b k).
Qed.

Lemma invoked_app (t1 t2 : list event) :
  invoked (t1 ++ t2) = invoked t1 ++ invoked t2.
Proof.
  induction t1 as [|[o|r|r|ok] t1 IH]; simpl; auto. now rewrite IH.
Qed.

(** An operation does to a key what [touch] says. *)
Lemma exec_find (o : op) (s : Storage) (k : string) :
  wf s ->
  JsMap.find k (_items (fst (exec o s))) =
  match touch o k with
  | Some w => w
  | None => JsMap.find k (_items s)
  end.
Proof.
  intros Hwf. destruct o as [|k'|n| |k'|k' v]; simpl; auto.
  - now rewrite clear_items, find_all_empty.
  - rewrite removeItem_items.
    destruct (String.eqb_spec k' k) as [->|Hk].
    + now apply find_delete_same.
    + now apply find_delete_other.
  - rewrite setItem_items.
    destruct (String.eqb_spec k' k) as [->|Hk].
    + apply find_set_same.
    + now apply find_set_other.
Qed.

Lemma step_find (e : event) (s : Storage) (k : string) :
  wf s -> merges e s = false ->
  JsMap.find k (_items (step e s)) =
  match caller_view (invoked [e]) k with
  | Some w => w
  | None => JsMap.find k (_items s)
  end.
Proof.
  intros Hwf Hm. destruct e as [o|[ks|]|[r|]|ok]; simpl.
  - now apply exec_find.
  - now destruct (task s).
  - now destruct (task s).
  - unfold merges in Hm. simpl in Hm. now destruct (task s).
  - now destruct (task s).
  - reflexivity.
Qed.

(** As long as the merge loop does not run, the items are what the
    caller's operations say, on top of what was there. *)
Lemma run_find (t : list event) (k : string) :
  forall s : Storage,
    wf s -> merge_runs t s = false ->
    JsMap.find k (_items (run t s)) =
    match caller_view (invoked t) k with
    | Some w => w
    | None => JsMap.find k (_items s)
    end.
Proof.
  induction t as [|e t IH]; intros s Hwf Hm; auto.
  simpl in Hm. apply orb_false_iff in Hm as [Hm1 Hm2].
  rewrite run_cons, IH by (auto using step_wf).
  change (e :: t) with ([e] ++ t). rewrite invoked_app, caller_view_app.
  destruct (caller_view (invoked t) k); auto.
  now apply step_find.
Qed.

Lemma step_task_over (e : event) (s : Storage) :
  task s = TaskOver -> task (step e s) = TaskOver.
Proof.
  intros H. destruct e as [o|r|r|ok]; simpl; try rewrite H; auto.
  now rewrite exec_task.
Qed.

Lemma run_task_over (t : list event) (s : Storage) :
  task s = TaskOver -> task (run t s) = TaskOver.
Proof.
  revert s. induction t as [|e t IH]; intros s H; auto.
  rewrite run_cons. apply IH. now apply step_task_over.
Qed.

Lemma merge_runs_task_over (t : list event) :
  forall s : Storage, task s = TaskOver -> merge_runs t s = false.
Proof.
  induction t as [|e t IH]; intros s H; simpl; auto.
  rewrite IH by now apply step_task_over.
  unfold merges. rewrite H. now rewrite andb_false_r.
Qed.

Lemma merge_runs_ends_task (t : list event) :
  forall s : Storage, merge_runs t s = true -> task (run t s) = TaskOver.
Proof.
  induction t as [|e t IH]; intros s H; simpl in H; [discriminate|].
  rewrite run_cons.
  destruct (merges e s) eqn:E; simpl in H; [|now apply IH].
  apply run_task_over.
  unfold merges in E. destruct e as [o|r|[r|]|ok]; try discriminate.
  simpl in *. now destruct (task s).
Qed.

Lemma substring_from_append (p k : string) :
  substring_from (String.length p) (p ++ k)%string = k.
Proof. induction p as [|a p IH]; simpl; auto. Qed.

Lemma step_keeps_present (e : event) (s : Storage) (k : string)
    (x : jsval) :
  JsMap.find k (_items s) = Some x ->
  caller_view (invoked [e]) k = None ->
  JsMap.find k (_items (step e s)) = Some x.
Proof.
  intros Hx Hv. destruct e as [o|[ks|]|[r|]|ok]; simpl in *;
    try (now destruct (task s)).
  - destruct o as [|k'|n| |k'|k' v]; simpl in *; auto; try discriminate.
    + rewrite removeItem_items.
      destruct (String.eqb_spec k' k); [discriminate|].
      now rewrite find_delete_other.
    + rewrite setItem_items.
      destruct (String.eqb_spec k' k); [discriminate|].
      now rewrite find_set_other.
  - destruct (task s); auto. simpl. now rewrite merge_loop_find, Hx.
Qed.

Lemma run_keeps_present (t : list event) (k : string) (x : jsval) :
  forall s : Storage,
    JsMap.find k (_items s) = Some x ->
    caller_view (invoked t) k = None ->
    JsMap.find k (_items (run t s)) = Some x.
Proof.
  induction t as [|e t IH]; intros s Hx Hv; auto.
  change (e :: t) with ([e] ++ t) in Hv.
  rewrite invoked_app, caller_view_app in Hv.
  destruct (caller_view (invoked t) k) eqn:E; [discriminate|].
  rewrite run_cons. apply IH; auto. now apply step_keeps_present.
Qed.

(** ** Caller writes and the merge *)

(** C1. Caller-write-wins race: once the caller has written [v] under [k],
    at any point of any trace, every later state reads [String(v)] under
    [k] as long as the caller itself does not remove or overwrite [k]:
    neither the merge loop nor any other settlement of a backend promise
    changes the entry, whenever it runs and whatever the backend holds. *)
Theorem caller_write_wins_race (p : jsval) (pre mid : list event)
    (k : string) (v : jsval) :
  caller_view (invoked mid) k = None ->
  getItem k (run (pre ++ Invoke (OpSetItem k v) :: mid) (constructor p)) =
  JStr (ToString v).
Proof.
  intros Hmid.
  rewrite run_app, run_cons, getItem_find.
  rewrite (run_keeps_present mid k (JStr (ToString v))); auto.
  simpl. rewrite setItem_items. apply find_set_same.
Qed.

(** The backend holds [("pa", "old")]; the caller writes ["new"] under
    ["a"] between the two steps of the reconciliation. *)
Lemma caller_write_wins_race_witness :
  let mid := [Invoke (OpSetItem "b" (JStr "x"));
              MultiGetSettled (Some [("pa", JStr "old")])] in
  caller_view (invoked mid) "a" = None /\
  getItem "a"
    (run ([GetAllKeysSettled (Some ["pa"])] ++
          Invoke (OpSetItem "a" (JStr "new")) :: mid)
       (constructor (JStr "p"))) = JStr "new".
Proof.
  split; [reflexivity|].
  apply (caller_write_wins_race (JStr "p")
           [GetAllKeysSettled (Some ["pa"])] _ "a" (JStr "new")).
  reflexivity.
Defined.

(** Without the write, the same reconciliation does load ["old"]. *)
Example race_without_write_loads_old :
  getItem "a"
    (run [GetAllKeysSettled (Some ["pa"]);
          MultiGetSettled (Some [("pa", JStr "old")])]
       (constructor (JStr "p"))) = JStr "old".
Proof. reflexivity. Qed.

(** C2, as stated, fails: the caller writes and then removes ["a"] before
    the merge loop runs; the union in which the caller's removal comes
    first has no ["a"], but the merge loop finds the key absent and stores
    the backend's ["old"]. *)
Lemma removal_before_merge_is_lost :
  let t1 := [Invoke (OpSetItem "a" (JStr "new"));
             Invoke (OpRemoveItem "a");
             GetAllKeysSettled (Some ["pa"])] in
  let r := [("pa", JStr "old")] in
  let s := run (t1 ++ [MultiGetSettled (Some r)]) (constructor (JStr "p")) in
  union_caller_first (invoked (t1 ++ [MultiGetSettled (Some r)]))
    (stripped 1 r) "a" = None /\
  getItem "a" s = JStr "old" /\
  JsMap.find "a" (_items s) <>
  union_caller_first (invoked (t1 ++ [MultiGetSettled (Some r)]))
    (stripped 1 r) "a".
Proof.
  split; [reflexivity|]. split; [reflexivity|].
  simpl. discriminate.
Qed.

(** C2, amended. In every state a trace reaches from the constructor, the
    items are a union of the caller's operations and the merged entries,
    key by key: until the merge loop runs they are what the caller's
    operations say; from then on the operations issued after the merge
    override everything, a write issued before the merge whose key is
    still there overrides the merged entry, and a key the caller removed
    before the merge takes the merged entry. *)
Theorem items_union_present_first (p : jsval) (k : string) :
  (forall t : list event,
      merge_runs t (constructor p) = false ->
      JsMap.find k (_items (run t (constructor p))) =
      union_caller_first (invoked t) [] k) /\
  (forall (t1 : list event) (keys : list string)
          (r : list (string * jsval)) (t2 : list event),
      task (run t1 (constructor p)) = AwaitingValues keys ->
      JsMap.find k
        (_items (run (t1 ++ MultiGetSettled (Some r) :: t2) (constructor p))) =
      union_present_first (invoked t1) (invoked t2)
        (stripped (keyPrefixLength p) r) k).
Proof.
  assert (E0 : JsMap.find k (_items (constructor p)) = None)
    by (unfold constructor; now destruct (is_defined p)).
  split.
  - intros t Hm. unfold union_caller_first.
    rewrite run_find; auto using wf_constructor.
    now rewrite E0.
  - intros t1 keys r t2 Ht.
    assert (Hm1 : merge_runs t1 (constructor p) = false).
    { destruct (merge_runs t1 (constructor p)) eqn:E; auto.
      apply merge_runs_ends_task in E. congruence. }
    pose proof (run_find t1 k _ (wf_constructor p) Hm1) as H1.
    rewrite E0 in H1.
    rewrite run_app, run_cons.
    set (s1 := run t1 (constructor p)) in *.
    assert (Hs2 : step (MultiGetSettled (Some r)) s1 = onMultiGet r s1)
      by (simpl; now rewrite Ht).
    rewrite Hs2.
    rewrite run_find.
    + unfold union_present_first.
      destruct (caller_view (invoked t2) k); auto.
      simpl. rewrite merge_loop_find, H1.
      unfold s1. rewrite run_keyPrefix.
      replace (_keyPrefix (constructor p)) with p
        by (unfold constructor; now destruct (is_defined p)).
      now destruct (caller_view (invoked t1) k) as [[x|]|].
    + rewrite <- Hs2. apply step_wf, run_wf, wf_constructor.
    + now apply merge_runs_task_over.
Qed.

Lemma items_union_present_first_witness :
  let t1 := [Invoke (OpSetItem "a" (JStr "new"));
             Invoke (OpRemoveItem "a");
             Invoke (OpSetItem "b" (JStr "kept"));
             GetAllKeysSettled (Some ["pa"; "pb"; "pc"])] in
  let r := [("pa", JStr "old"); ("pb", JStr "stale"); ("pc", JStr "3")] in
  let t2 := [Invoke (OpRemoveItem "c")] in
  merge_runs t1 (constructor (JStr "p")) = false /\
  task (run t1 (constructor (JStr "p"))) = AwaitingValues ["pa"; "pb"; "pc"] /\
  JsMap.find "b" (_items (run t1 (constructor (JStr "p")))) =
    union_caller_first (invoked t1) [] "b" /\
  JsMap.find "b"
    (_items (run (t1 ++ MultiGetSettled (Some r) :: t2)
               (constructor (JStr "p")))) =
    union_present_first (invoked t1) (invoked t2) (stripped 1 r) "b".
Proof.
  intros t1 r t2.
  split; [reflexivity|]. split; [reflexivity|]. split.
  - apply (proj1 (items_union_present_first (JStr "p") "b") t1).
    reflexivity.
  - apply (proj2 (items_union_present_first (JStr "p") "b")
             t1 ["pa"; "pb"; "pc"] r t2).
    reflexivity.
Defined.

(** C10. Merged values are stored as they come: when the instance has the
    string prefix [p], its items do not hold [k], and the [multiGet]
    result offers [null] under [p ++ k] (with no pair for [k] before it),
    the merge loop stores [null] under [k].  From then on [k] is a key of
    the map and counts in [length], and [getItem(k)] returns [null], as it
    did while [k] was absent: the stored value is not a string. *)
Theorem merged_null_reads_as_absent (s : Storage) (keys : list string)
    (p k : string) (r1 r2 : list (string * jsval)) :
  task s = AwaitingValues keys ->
  _keyPrefix s = JStr p ->
  JsMap.has k (_items s) = false ->
  assoc k (stripped (String.length p) r1) = None ->
  let s' :=
    step (MultiGetSettled (Some (r1 ++ ((p ++ k)%string, JNull) :: r2))) s in
  JsMap.find k (_items s') = Some JNull /\
  JsMap.has k (_items s') = true /\
  In k (JsMap.keys (_items s')) /\
  length s' = List.length (JsMap.keys (_items s')) /\
  length s < length s' /\
  getItem k s' = JNull /\
  getItem k s = JNull.
Proof.
  intros Ht Hp Hk Hr1 s'.
  assert (Hfind0 : JsMap.find k (_items s) = None).
  { unfold JsMap.has in Hk. now destruct (JsMap.find k (_items s)). }
  set (n := String.length p).
  set (m1 := merge_loop n r1 (_items s)).
  assert (Hm1 : JsMap.find k m1 = None).
  { unfold m1. now rewrite merge_loop_find, Hfind0. }
  assert (Hitems : _items s' =
                   merge_loop n r2 (JsMap.set k JNull m1)).
  { unfold s'. simpl. rewrite Ht. simpl. rewrite Hp. simpl.
    rewrite merge_loop_app. fold n. fold m1. simpl.
    unfold n. rewrite !substring_from_append.
    unfold JsMap.has. now rewrite Hm1. }
  assert (Hfind : JsMap.find k (_items s') = Some JNull).
  { now rewrite Hitems, merge_loop_find, find_set_same. }
  split; [exact Hfind|].
  split; [unfold JsMap.has; now rewrite Hfind|].
  split.
  { destruct (in_dec string_dec k (JsMap.keys (_items s'))) as [H|H]; auto.
    apply find_none_keys in H. congruence. }
  split; [apply size_keys|].
  split.
  { unfold length. rewrite Hitems.
    pose proof (merge_loop_size n r2 (JsMap.set k JNull m1)) as H2.
    pose proof (merge_loop_size n r1 (_items s)) as H1. fold m1 in H1.
    rewrite size_set in H2. unfold JsMap.has in H2.
    rewrite Hm1 in H2. lia. }
  split.
  - now rewrite getItem_find, Hfind.
  - now rewrite getItem_find, Hfind0.
Qed.

(** The backend answers [null] for ["pk"]: one more key, read as absent. *)
Lemma merged_null_reads_as_absent_witness :
  let s := step (GetAllKeysSettled (Some ["pj"; "pk"]))
             (constructor (JStr "p")) in
  let s' := step (MultiGetSettled
                    (Some ([("pj", JStr "1")] ++ ("pk", JNull) :: []))) s in
  JsMap.find "k" (_items s') = Some JNull /\
  JsMap.has "k" (_items s') = true /\
  In "k" (JsMap.keys (_items s')) /\
  length s' = List.length (JsMap.keys (_items s')) /\
  length s < length s' /\
  getItem "k" s' = JNull /\
  getItem "k" s = JNull.
Proof.
  intros s.
  apply (merged_null_reads_as_absent s ["pj"; "pk"] "p" "k"
           [("pj", JStr "1")] []); reflexivity.
Defined.

(** ** Reconciliation against a well-behaved backend *)

Lemma prefix_append (p k : string) : String.prefix p (p ++ k) = true.
Proof.
  induction p as [|a p IH]; simpl.
  - now destruct k.
  - destruct (ascii_dec a a); [exact IH | contradiction].
Qed.

Lemma prefix_split (p : string) :
  forall s : string,
    String.prefix p s = true ->
    s = (p ++ substring_from (String.length p) s)%string.
Proof.
  induction p as [|a p IH]; intros s H.
  - reflexivity.
  - destruct s as [|b s]; simpl in H; [discriminate|].
    destruct (ascii_dec a b) as [->|]; [|discriminate].
    simpl. f_equal. now apply IH.
Qed.

Lemma existsb_backend_get (x : string) (b : Backend) :
  existsb (String.eqb x) (backend_getAllKeys b) =
  match backend_get x b with
  | Some _ => true
  | None => false
  end.
Proof.
  induction b as [|[k' v] b IH]; simpl; auto.
  rewrite (String.eqb_sym x k').
  destruct (String.eqb k' x); simpl; auto.
Qed.

(** What the merge is offered for [k]: the backend's answer for [p ++ k],
    when that key is among those enumerated. *)
Lemma assoc_reconciled (p : string) (b : Backend) (k : string)
    (ks : list string) :
  assoc k (stripped (String.length p)
             (backend_multiGet b (filter (String.prefix p) ks))) =
  if existsb (String.eqb (p ++ k)) ks
  then Some (match backend_get (p ++ k) b with
             | Some v => JStr v
             | None => JNull
             end)
  else None.
Proof.
  induction ks as [|pk ks IH]; simpl; auto.
  destruct (String.prefix p pk) eqn:E; simpl.
  - pose proof (prefix_split p pk E) as Hpk.
    destruct (String.eqb_spec (substring_from (String.length p) pk) k)
      as [Hk|Hk].
    + rewrite Hk in Hpk. rewrite <- Hpk, String.eqb_refl. reflexivity.
    + destruct (String.eqb_spec (p ++ k) pk) as [Heq|Hne]; simpl; auto.
      exfalso. apply Hk. rewrite <- Heq. apply substring_from_append.
  - destruct (String.eqb_spec (p ++ k) pk) as [Heq|Hne]; simpl; auto.
    rewrite <- Heq, prefix_append in E. discriminate.
Qed.

(** C4. Reconciliation filters on the prefix and strips it.  With prefix
    ["p"] over a backend holding [("px","1")], [("py","2")] and
    [("qz","3")], and no call in between, [multiGet] is asked for ["px"]
    and ["py"] only, the items end with the keys ["x"] and ["y"], and
    [getItem] returns ["1"], ["2"] and [null] for ["x"], ["y"] and ["z"].
    For every string prefix [p] and backend [b]: [getItem(k)] returns what
    [b] holds under [p ++ k], [null] if nothing, and [k] is a key of the
    items exactly when [p ++ k] is a key of [b]. *)
Theorem reconciliation_filters_and_strips :
  (let s := reconcile [("px", "1"); ("py", "2"); ("qz", "3")]
              (constructor (JStr "p")) in
   getItem "x" s = JStr "1" /\ getItem "y" s = JStr "2" /\
   getItem "z" s = JNull /\
   JsMap.keys (_items s) = ["x"; "y"] /\
   calls s = [CallGetAllKeys; CallMultiGet ["px"; "py"]]) /\
  (forall (p : string) (b : Backend) (k : string),
      let s := reconcile b (constructor (JStr p)) in
      getItem k s = match backend_get (p ++ k) b with
                    | Some v => JStr v
                    | None => JNull
                    end /\
      (In k (JsMap.keys (_items s)) <-> In (p ++ k)%string (backend_getAllKeys b))).
Proof.
  split; [repeat split|].
  intros p b k s.
  assert (Hfind : JsMap.find k (_items s) =
                  if existsb (String.eqb (p ++ k)) (backend_getAllKeys b)
                  then Some (match backend_get (p ++ k) b with
                             | Some v => JStr v
                             | None => JNull
                             end)
                  else None).
  { unfold s, reconcile. simpl. rewrite merge_loop_find. simpl.
    apply assoc_reconciled. }
  split.
  - rewrite getItem_find, Hfind, existsb_backend_get.
    now destruct (backend_get (p ++ k) b).
  - destruct (existsb (String.eqb (p ++ k)) (backend_getAllKeys b)) eqn:E.
    + split; intros _.
      * apply existsb_exists in E as [x [Hx Hxe]].
        apply String.eqb_eq in Hxe. now subst.
      * destruct (in_dec string_dec k (JsMap.keys (_items s))) as [H|H];
          auto.
        apply find_none_keys in H. congruence.
    + split; intros H.
      * apply find_none_keys in Hfind. contradiction.
      * assert (existsb (String.eqb (p ++ k)) (backend_getAllKeys b) = true).
        { apply existsb_exists. exists (p ++ k)%string.
          split; auto. apply String.eqb_refl. }
        congruence.
Qed.

(** ** Rejected promises *)

Lemma same_memory_refl (s : Storage) : same_memory s s.
Proof. now repeat split. Qed.

Lemma removeItem_same_memory (k : string) (s s' : Storage) :
  same_memory s s' -> same_memory (removeItem k s) (removeItem k s').
Proof.
  intros (Hi & Hp & Hc). unfold removeItem. rewrite Hi, Hp, Hc.
  destruct (is_defined (_keyPrefix s')); now repeat split.
Qed.

Lemma setItem_same_memory (k : string) (v : jsval) (s s' : Storage) :
  same_memory s s' -> same_memory (setItem k v s) (setItem k v s').
Proof.
  intros (Hi & Hp & Hc). unfold setItem. rewrite Hi, Hp, Hc.
  destruct (is_defined (_keyPrefix s')); now repeat split.
Qed.

Lemma clear_loop_same_memory (fuel : nat) :
  forall (i : nat) (s s' : Storage),
    same_memory s s' ->
    same_memory (clear_loop fuel i s) (clear_loop fuel i s').
Proof.
  induction fuel as [|fuel IH]; intros i s s' H; simpl; auto.
  destruct H as (Hi & Hp & Hc). rewrite Hi.
  destruct (nth_error (_items s') i) as [[[k v]|]|].
  - apply IH. apply removeItem_same_memory. now repeat split.
  - apply IH. now repeat split.
  - now repeat split.
Qed.

(** The methods read the fields only: not the promise chain. *)
Lemma exec_same_memory (o : op) (s s' : Storage) :
  same_memory s s' ->
  same_memory (fst (exec o s)) (fst (exec o s')) /\
  snd (exec o s) = snd (exec o s').
Proof.
  intros H. pose proof H as (Hi & Hp & Hc).
  destruct o as [|k|n| |k|k v]; simpl; split; auto.
  - unfold clear. rewrite Hi. now apply clear_loop_same_memory.
  - unfold getItem. now rewrite Hi.
  - unfold length. now rewrite Hi.
  - now apply removeItem_same_memory.
  - now apply setItem_same_memory.
Qed.

Lemma settles_once_tail (e : event) (t : list event) :
  settles_once (e :: t) -> settles_once t.
Proof.
  unfold settles_once. simpl. intros [H1 H2].
  destruct (is_keys_settlement e), (is_values_settlement e);
    simpl in *; lia.
Qed.

Lemma settles_once_keys (e : event) (t : list event) :
  is_keys_settlement e = true -> settles_once (e :: t) ->
  filter is_keys_settlement t = [].
Proof.
  unfold settles_once. simpl. intros -> [H1 _]. simpl in H1.
  destruct (filter is_keys_settlement t); auto. simpl in H1. lia.
Qed.

Lemma settles_once_values (e : event) (t : list event) :
  is_values_settlement e = true -> settles_once (e :: t) ->
  filter is_values_settlement t = [].
Proof.
  unfold settles_once. simpl. intros -> [_ H2]. simpl in H2.
  destruct (filter is_values_settlement t); auto. simpl in H2. lia.
Qed.

(** One event on both sides: the side without rejections skips a
    rejection, and the memories stay the same. *)
Lemma lagging_step (e : event) (t : list event) (s s' : Storage) :
  same_memory s s' -> lagging (e :: t) s s' ->
  let s1 := step e s in
  let s1' := if is_rejection e then s' else step e s' in
  same_memory s1 s1' /\ lagging t s1 s1'.
Proof.
  intros Hm Hl. pose proof Hm as (Hi & Hp & Hc).
  destruct e as [o|[ks|]|[r|]|[|]]; simpl.
  - (* a call of the user *)
    split; [now apply exec_same_memory|].
    unfold lagging. rewrite !exec_task.
    destruct Hl as [[Ht Hs]|[(Ht & Ht' & Hf)|(Ht & Ht' & Hf)]].
    + left. split; eauto using settles_once_tail.
    + right; left. now repeat split.
    + right; right. now repeat split.
  - (* the keys arrive *)
    destruct Hl as [[Ht Hs]|[(Ht & Ht' & Hf)|(Ht & [ks' Ht'] & Hf)]].
    + rewrite <- Ht. apply settles_once_tail in Hs.
      destruct (task s) eqn:E; try (split; [exact Hm|left; split; [congruence|assumption]]).
      unfold onGetAllKeys. rewrite Hi, Hp, Hc.
      split; [now repeat split|left; split; [reflexivity|assumption]].
    + simpl in Hf. discriminate.
    + rewrite Ht, Ht'. split; auto. right; right. split; eauto.
  - (* getAllKeys is rejected *)
    destruct Hl as [[Ht Hs]|[(Ht & Ht' & Hf)|(Ht & Ht' & Hf)]].
    + pose proof (settles_once_keys (GetAllKeysSettled None) t eq_refl Hs) as Hk.
      apply settles_once_tail in Hs.
      destruct (task s) eqn:E; try (split; [exact Hm|left; split; [congruence|assumption]]).
      split; [now repeat split|]. right; left. now repeat split.
    + simpl in Hf. discriminate.
    + rewrite Ht. split; auto. right; right. now repeat split.
  - (* the values arrive *)
    destruct Hl as [[Ht Hs]|[(Ht & Ht' & Hf)|(Ht & Ht' & Hf)]].
    + rewrite <- Ht. apply settles_once_tail in Hs.
      destruct (task s) eqn:E; try (split; [exact Hm|left; split; [congruence|assumption]]).
      unfold onMultiGet. rewrite Hi, Hp, Hc.
      split; [now repeat split|left; split; [reflexivity|assumption]].
    + rewrite Ht, Ht'. split; auto. right; left. now repeat split.
    + simpl in Hf. discriminate.
  - (* multiGet is rejected *)
    destruct Hl as [[Ht Hs]|[(Ht & Ht' & Hf)|(Ht & Ht' & Hf)]].
    + pose proof (settles_once_values (MultiGetSettled None) t eq_refl Hs) as Hv.
      apply settles_once_tail in Hs.
      destruct (task s) eqn:E; try (split; [exact Hm|left; split; [congruence|assumption]]).
      split; [now repeat split|]. right; right. split; auto.
      split; auto. exists keys. now rewrite <- Ht.
    + rewrite Ht. split; auto. right; left. now repeat split.
    + simpl in Hf. discriminate.
  - (* a persistence call succeeds *)
    split; [exact Hm | exact Hl].
  - (* a persistence call fails *)
    split; [exact Hm | exact Hl].
Qed.

Lemma lagging_run (t : list event) :
  forall s s' : Storage,
    same_memory s s' -> lagging t s s' ->
    same_memory (run t s) (run (successful_only t) s') /\
    outcomes t s = outcomes (successful_only t) s'.
Proof.
  induction t as [|e t IH]; intros s s' Hm Hl; [now split|].
  destruct (lagging_step e t s s' Hm Hl) as [Hm1 Hl1].
  specialize (IH _ _ Hm1 Hl1).
  rewrite run_cons. unfold successful_only in *. simpl filter.
  destruct e as [o|[ks|]|[r|]|[|]]; simpl in *; auto.
  destruct IH as [IH1 IH2]. split; auto.
  f_equal; auto. now apply exec_same_memory.
Qed.

Lemma outcomes_never_throw (t : list event) :
  forall s : Storage,
    Forall (fun c => forall v : jsval, c <> Throw v) (outcomes t s).
Proof.
  induction t as [|e t IH]; intros s; simpl; auto.
  destruct e as [o|r|r|ok]; auto.
  constructor; auto. destruct o; simpl; discriminate.
Qed.

(** C8. Backend errors are invisible.  Take any trace in which each of the
    two promises of the reconciliation settles at most once, and any
    number of its promises are rejected, those of [setItem] and
    [removeItem] included.  No operation of the caller throws; and the
    items, the recorded backend calls and every value returned to the
    caller are those of the same trace without the rejections: a rejected
    [getAllKeys] or [multiGet] only means that nothing is merged. *)
Theorem backend_failures_invisible (p : jsval) (t : list event) :
  settles_once t ->
  let s := constructor p in
  Forall (fun c => forall v : jsval, c <> Throw v) (outcomes t s) /\
  _items (run t s) = _items (run (successful_only t) s) /\
  calls (run t s) = calls (run (successful_only t) s) /\
  outcomes t s = outcomes (successful_only t) s.
Proof.
  intros Hs s.
  split; [apply outcomes_never_throw|].
  destruct (lagging_run t s s (same_memory_refl s)) as [(Hi & _ & Hc) Ho].
  - left. now split.
  - now repeat split.
Qed.

(** [getAllKeys] succeeds, the caller writes, [multiGet] is rejected and
    so is the write to the backend. *)
Lemma backend_failures_invisible_witness :
  let t := [GetAllKeysSettled (Some ["pa"]);
            Invoke (OpSetItem "b" (JStr "1"));
            PersistSettled false;
            MultiGetSettled None;
            Invoke (OpGetItem "b");
            Invoke (OpGetItem "a");
            Invoke OpLength] in
  let s := constructor (JStr "p") in
  settles_once t /\
  successful_only t = [GetAllKeysSettled (Some ["pa"]);
                       Invoke (OpSetItem "b" (JStr "1"));
                       Invoke (OpGetItem "b");
                       Invoke (OpGetItem "a");
                       Invoke OpLength] /\
  outcomes t s = [Return JUndefined; Return (JStr "1"); Return JNull;
                  ReturnNumber 1] /\
  (Forall (fun c => forall v : jsval, c <> Throw v) (outcomes t s) /\
   _items (run t s) = _items (run (successful_only t) s) /\
   calls (run t s) = calls (run (successful_only t) s) /\
   outcomes t s = outcomes (successful_only t) s).
Proof.
  intros t s.
  assert (H : settles_once t) by (unfold settles_once; simpl; lia).
  split; [exact H|]. split; [reflexivity|]. split; [reflexivity|].
  exact (backend_failures_invisible (JStr "p") t H).
Defined.

(** * Further properties of the methods *)

(** ** removeItem *)

Lemma delete_absent (k : string) (m : JsMap.t) :
  JsMap.find k m = None -> JsMap.delete k m = m.
Proof.
  induction m as [|[[k0 v0]|] m IH]; simpl; intros H; auto.
  - destruct (String.eqb k0 k); [discriminate|]. now rewrite IH.
  - now rewrite IH.
Qed.

Lemma size_delete (k : string) (m : JsMap.t) :
  JsMap.size (JsMap.delete k m) =
  if JsMap.has k m then JsMap.size m - 1 else JsMap.size m.
Proof.
  unfold JsMap.has.
  induction m as [|[[k0 v0]|] m IH]; simpl; auto.
  destruct (String.eqb k0 k); simpl; [lia|].
  rewrite IH. destruct (JsMap.find k m) eqn:E; auto.
  assert (0 < JsMap.size m); [|lia].
  clear IH. induction m as [|[[k1 v1]|] m IHm]; simpl in *;
    try discriminate; try lia.
  now apply IHm.
Qed.

(** X1. Remove-then-read: in every state an instance reaches, [getItem(k)]
    right after [removeItem(k)] returns [null], whether [k] was there or
    not. *)
Theorem removeItem_then_getItem (p : jsval) (t : list event) (k : string) :
  getItem k (removeItem k (run t (constructor p))) = JNull.
Proof.
  rewrite getItem_find, removeItem_items, find_delete_same; auto.
  apply run_wf, wf_constructor.
Qed.

(** X2. [removeItem] of a key that is not there leaves the items as they are,
    entry by entry, but still asks the backend to remove the key when the
    instance has a prefix. *)
Theorem removeItem_absent_key (k : string) (s : Storage) :
  JsMap.has k (_items s) = false ->
  _items (removeItem k s) = _items s /\
  length (removeItem k s) = length s /\
  calls (removeItem k s) =
    if is_defined (_keyPrefix s)
    then calls s ++ [CallRemoveItem (backendKey (_keyPrefix s) k)]
    else calls s.
Proof.
  intros H.
  assert (E : _items (removeItem k s) = _items s).
  { rewrite removeItem_items. apply delete_absent.
    unfold JsMap.has in H. now destruct (JsMap.find k (_items s)). }
  split; [exact E|]. split; [unfold length; now rewrite E|].
  unfold removeItem. now destruct (is_defined (_keyPrefix s)).
Qed.

Lemma removeItem_absent_key_witness :
  let s := setItem "a" (JStr "1") (constructor (JStr "p")) in
  JsMap.has "b" (_items s) = false /\
  _items (removeItem "b" s) = _items s /\
  length (removeItem "b" s) = length s /\
  calls (removeItem "b" s) =
    if is_defined (_keyPrefix s)
    then calls s ++ [CallRemoveItem (backendKey (_keyPrefix s) "b")]
    else calls s.
Proof.
  intros s. split; [reflexivity|].
  apply (removeItem_absent_key "b" s). reflexivity.
Defined.

(** X3. [removeItem] of a key that is there makes the length one less; of
    another key, it leaves the length. *)
Theorem removeItem_length (k : string) (s : Storage) :
  length (removeItem k s) =
  if JsMap.has k (_items s) then length s - 1 else length s.
Proof.
  unfold length. rewrite removeItem_items. apply size_delete.
Qed.

(** ** setItem *)

Lemma set_set (k : string) (v1 v2 : jsval) (m : JsMap.t) :
  JsMap.set k v2 (JsMap.set k v1 m) = JsMap.set k v2 m.
Proof.
  induction m as [|[[k0 v0]|] m IH]; simpl.
  - now rewrite String.eqb_refl.
  - destruct (String.eqb k0 k) eqn:E; simpl; rewrite E; auto.
    now rewrite IH.
  - now rewrite IH.
Qed.

Lemma set_all_empty (k : string) (v : jsval) (n : nat) :
  JsMap.set k v (repeat None n) = repeat None n ++ [Some (k, v)].
Proof. induction n as [|n IH]; simpl; auto. now rewrite IH. Qed.

(** X4. A write to a key that is there keeps the length and the order of the
    keys; a write to a new key adds it after all the others. *)
Theorem setItem_length_and_order (k : string) (v : jsval) (s : Storage) :
  length (setItem k v s) =
    (if JsMap.has k (_items s) then length s else S (length s)) /\
  JsMap.keys (_items (setItem k v s)) =
    (if JsMap.has k (_items s) then JsMap.keys (_items s)
     else JsMap.keys (_items s) ++ [k]).
Proof.
  unfold length. rewrite setItem_items. split.
  - apply size_set.
  - apply keys_set.
Qed.

(** X5. The last write wins, position included: two writes to a key leave the
    items that the second alone would leave. *)
Theorem setItem_overwrites (k : string) (v1 v2 : jsval) (s : Storage) :
  _items (setItem k v2 (setItem k v1 s)) = _items (setItem k v2 s).
Proof.
  rewrite !setItem_items. apply set_set.
Qed.

(** X6. A write or a removal under [k'] changes nothing for another key. *)
Theorem other_keys_untouched (k k' : string) (v : jsval) (s : Storage) :
  k' <> k ->
  getItem k (setItem k' v s) = getItem k s /\
  getItem k (removeItem k' s) = getItem k s.
Proof.
  intros H. rewrite !getItem_find, setItem_items, removeItem_items.
  now rewrite find_set_other, find_delete_other.
Qed.

Lemma other_keys_untouched_witness :
  let s := setItem "a" (JStr "1") (constructor JUndefined) in
  "b" <> "a" /\
  getItem "a" (setItem "b" (JStr "2") s) = getItem "a" s /\
  getItem "a" (removeItem "b" s) = getItem "a" s.
Proof.
  intros s.
  assert (H : "b" <> "a") by discriminate.
  split; [exact H|].
  exact (other_keys_untouched "a" "b" (JStr "2") s H).
Defined.

(** ** clear *)

(** X7. The storage works on after [clear()]: a write then makes it a storage
    of that one key. *)
Theorem clear_then_setItem (k : string) (v : jsval) (s : Storage) :
  let s' := setItem k v (clear s) in
  length s' = 1 /\ JsMap.keys (_items s') = [k] /\
  getItem k s' = JStr (ToString v).
Proof.
  intros s'. unfold s', length.
  rewrite getItem_find, setItem_items, clear_items.
  rewrite find_set_same, size_keys, set_all_empty.
  assert (E : forall n e, JsMap.keys (repeat None n ++ [Some e]) = [fst e]).
  { intros n [k0 v0]. induction n; simpl; auto. }
  rewrite E. now repeat split.
Qed.

Lemma clear_loop_calls (rest : JsMap.t) :
  forall (fuel i : nat) (s : Storage),
    is_defined (_keyPrefix s) = true ->
    _items s = repeat None i ++ rest ->
    List.length rest <= fuel ->
    calls (clear_loop fuel i s) =
    calls s ++ map (fun k => CallRemoveItem (backendKey (_keyPrefix s) k))
                 (JsMap.keys rest).
Proof.
  induction rest as [|e rest IH]; intros fuel i s Hp Hs Hfuel.
  - rewrite app_nil_r in Hs. simpl. rewrite app_nil_r.
    destruct fuel as [|fuel]; simpl; auto.
    replace (nth_error (_items s) i) with (@None (option (string * jsval)));
      auto.
    rewrite Hs. symmetry. apply nth_error_None. now rewrite repeat_length.
  - destruct fuel as [|fuel]; simpl in Hfuel; [lia|]. simpl clear_loop.
    rewrite Hs at 1. rewrite nth_error_after_empty. simpl nth_error.
    destruct e as [[k v]|]; simpl JsMap.keys.
    + rewrite (IH fuel (S i)); try lia.
      * rewrite removeItem_keyPrefix. unfold removeItem at 1. rewrite Hp.
        simpl. now rewrite <- app_assoc.
      * now rewrite removeItem_keyPrefix.
      * rewrite removeItem_items, Hs, delete_first_used.
        apply empty_slot_shift.
    + apply IH; auto; try lia. rewrite Hs. apply empty_slot_shift.
Qed.

(** X8. [clear()] asks the backend to remove every key of the storage, once
    each, in the order of the keys, when the instance has a prefix, and
    asks nothing of it otherwise. *)
Theorem clear_persists_each_removal (s : Storage) :
  calls (clear s) =
  if is_defined (_keyPrefix s)
  then calls s ++ map (fun k => CallRemoveItem (backendKey (_keyPrefix s) k))
                    (JsMap.keys (_items s))
  else calls s.
Proof.
  destruct (is_defined (_keyPrefix s)) eqn:E.
  - unfold clear. now apply (clear_loop_calls (_items s) _ 0 s).
  - unfold clear. now apply clear_loop_calls_no_prefix.
Qed.

(** ** The merge loop, further *)

Lemma merge_loop_keys (n : nat) (r : list (string * jsval)) :
  forall m : JsMap.t,
    exists added : list string,
      JsMap.keys (merge_loop n r m) = JsMap.keys m ++ added.
Proof.
  induction r as [|[pk v] r IH]; intros m; simpl.
  - exists []. now rewrite app_nil_r.
  - destruct (JsMap.has (substring_from n pk) m) eqn:E; simpl; auto.
    destruct (IH (JsMap.set (substring_from n pk) v m)) as [added H].
    rewrite keys_set, E in H.
    exists (substring_from n pk :: added).
    rewrite H, <- app_assoc. reflexivity.
Qed.

(** X9. The merge only adds: the keys that were there stay in their order with
    their values, the new keys come after them, and the length does not
    go down. *)
Theorem merge_only_adds (r : list (string * jsval)) (s : Storage) :
  let s' := step (MultiGetSettled (Some r)) s in
  (exists added : list string,
      JsMap.keys (_items s') = JsMap.keys (_items s) ++ added) /\
  length s <= length s' /\
  (forall k : string,
      JsMap.has k (_items s) = true -> getItem k s' = getItem k s).
Proof.
  simpl. destruct (task s) eqn:E;
    try (split; [exists []; now rewrite app_nil_r | split; auto]).
  simpl. split; [apply merge_loop_keys|].
  split; [apply merge_loop_size|].
  intros k Hk. unfold getItem at 1. unfold JsMap.has, JsMap.get in *.
  simpl. rewrite merge_loop_find.
  rewrite getItem_find. now destruct (JsMap.find k (_items s)).
Qed.

(** ** The calls an operation records *)

(** What an operation adds to the recorded calls: removals and writes of
    backend keys of the instance. *)
Lemma exec_calls (o : op) (s : Storage) :
  exists l : list BackendCall,
    calls (fst (exec o s)) = calls s ++ l /\
    Forall (fun c => exists k : string,
                c = CallRemoveItem (backendKey (_keyPrefix s) k) \/
                exists v : string,
                  c = CallSetItem (backendKey (_keyPrefix s) k) v) l.
Proof.
  destruct o as [|k|n| |k|k v]; simpl;
    try (exists []; split; [now rewrite app_nil_r | constructor]).
  - destruct (is_defined (_keyPrefix s)) eqn:E.
    + eexists. split.
      * unfold clear. now apply (clear_loop_calls (_items s) _ 0 s).
      * apply Forall_forall. intros c Hc.
        apply in_map_iff in Hc as [k [<- _]]. exists k. now left.
    + exists []. split; [|constructor].
      unfold clear. rewrite app_nil_r.
      now apply clear_loop_calls_no_prefix.
  - unfold removeItem. destruct (is_defined (_keyPrefix s)); simpl.
    + eexists. split; [reflexivity|].
      constructor; [|constructor]. exists k. now left.
    + exists []. split; [now rewrite app_nil_r | constructor].
  - unfold setItem. destruct (is_defined (_keyPrefix s)); simpl.
    + eexists. split; [reflexivity|].
      constructor; [|constructor]. exists k. right. now eexists.
    + exists []. split; [now rewrite app_nil_r | constructor].
Qed.

Lemma step_calls (e : event) (s : Storage) :
  (exists l : list BackendCall,
      calls (step e s) = calls s ++ l /\
      Forall (fun c => exists k : string,
                  c = CallRemoveItem (backendKey (_keyPrefix s) k) \/
                  exists v : string,
                    c = CallSetItem (backendKey (_keyPrefix s) k) v) l) \/
  (task s = AwaitingKeys /\
   exists keys : list string,
     calls (step e s) = calls s ++ [CallMultiGet keys] /\
     task (step e s) = AwaitingValues keys).
Proof.
  destruct e as [o|[ks|]|[r|]|ok];
    try (left; exists []; split; [|constructor]; simpl;
         destruct (task s); simpl; now rewrite app_nil_r).
  - left. apply exec_calls.
  - simpl. destruct (task s) eqn:E;
      try (left; exists []; split; [now rewrite app_nil_r | constructor]).
    right. split; auto. eexists. split; reflexivity.
Qed.

Lemma persistence_calls_only (p : jsval) (l : list BackendCall) :
  Forall (fun c => exists k : string,
              c = CallRemoveItem (backendKey p k) \/
              exists v : string, c = CallSetItem (backendKey p k) v) l ->
  filter is_getAllKeys_call l = [] /\ filter is_multiGet_call l = [].
Proof.
  induction 1 as [|c l Hc Hl [IH1 IH2]]; [now split|].
  destruct Hc as [k [->|[v ->]]]; simpl; now split.
Qed.

(** ** One reconciliation per instance *)

Lemma step_awaiting_keys (e : event) (s : Storage) :
  task (step e s) = AwaitingKeys -> task s = AwaitingKeys.
Proof.
  destruct e as [o|[ks|]|[r|]|ok]; simpl; try rewrite exec_task; auto;
    destruct (task s) eqn:E; simpl; auto; intros H; congruence.
Qed.

(** X10. An instance starts the reconciliation at most once: in any trace,
    [getAllKeys] is called once by an instance with a prefix and never
    without one, and [multiGet] is called at most once. *)
Theorem reconciliation_runs_once (p : jsval) (t : list event) :
  let cs := calls (run t (constructor p)) in
  List.length (filter is_getAllKeys_call cs) =
    (if is_defined p then 1 else 0) /\
  List.length (filter is_multiGet_call cs) <= 1.
Proof.
  simpl.
  assert (G : forall s,
             List.length (filter is_multiGet_call (calls s)) <= 1 ->
             (task s = AwaitingKeys ->
              filter is_multiGet_call (calls s) = []) ->
             List.length (filter is_getAllKeys_call (calls (run t s))) =
               List.length (filter is_getAllKeys_call (calls s)) /\
             List.length (filter is_multiGet_call (calls (run t s))) <= 1).
  { induction t as [|e t IH]; intros s H1 H2; [now split|].
    rewrite run_cons.
    destruct (step_calls e s) as [[l [Hl Hf]]|[Ht [keys [Hl Ht']]]].
    - apply persistence_calls_only in Hf as [Hg Hm].
      destruct (IH (step e s)) as [IH1 IH2].
      + now rewrite Hl, filter_app, Hm, app_nil_r.
      + intros Hk. rewrite Hl, filter_app, Hm, app_nil_r.
        apply H2. now apply step_awaiting_keys in Hk.
      + split; auto. now rewrite IH1, Hl, filter_app, Hg, app_nil_r.
    - destruct (IH (step e s)) as [IH1 IH2].
      + rewrite Hl, filter_app, (H2 Ht). simpl. lia.
      + intros Hk. congruence.
      + split; auto. rewrite IH1, Hl, filter_app. simpl.
        now rewrite app_nil_r. }
  unfold constructor. destruct (is_defined p); apply G; simpl; auto.
Qed.

(** ** The backend after the recorded calls *)

Lemma backend_get_remove_same (k : string) (b : Backend) :
  backend_get k (backend_remove k b) = None.
Proof.
  induction b as [|[k' v] b IH]; simpl; auto.
  destruct (String.eqb k' k) eqn:E; simpl; auto. now rewrite E.
Qed.

Lemma backend_get_remove_other (k k' : string) (b : Backend) :
  k' <> k -> backend_get k (backend_remove k' b) = backend_get k b.
Proof.
  intros Hne. induction b as [|[k0 v] b IH]; simpl; auto.
  destruct (String.eqb_spec k0 k') as [->|H0]; simpl.
  - destruct (String.eqb_spec k' k); [contradiction | auto].
  - now rewrite IH.
Qed.

Lemma backend_get_set_same (k v : string) (b : Backend) :
  backend_get k (backend_set k v b) = Some v.
Proof. simpl. now rewrite String.eqb_refl. Qed.

Lemma backend_get_set_other (k k' v : string) (b : Backend) :
  k' <> k -> backend_get k (backend_set k' v b) = backend_get k b.
Proof.
  intros Hne. simpl.
  destruct (String.eqb_spec k' k); [contradiction|].
  now apply backend_get_remove_other.
Qed.

Lemma backend_replay_app (cs cs' : list BackendCall) (b : Backend) :
  backend_replay (cs ++ cs') b = backend_replay cs' (backend_replay cs b).
Proof. unfold backend_replay. apply fold_left_app. Qed.

Lemma append_inj (p k k' : string) :
  (p ++ k)%string = (p ++ k')%string -> k = k'.
Proof.
  induction p as [|a p IH]; simpl; intros H; auto.
  inversion H. auto.
Qed.

Lemma append_assoc (p q k : string) :
  ((p ++ q) ++ k)%string = (p ++ (q ++ k))%string.
Proof. induction p as [|a p IH]; simpl; auto. now rewrite IH. Qed.

Lemma backend_replay_other (x : string) (cs : list BackendCall) :
  forall b : Backend,
    Forall (fun c => match c with
                     | CallSetItem k _ | CallRemoveItem k => k <> x
                     | _ => True
                     end) cs ->
    backend_get x (backend_replay cs b) = backend_get x b.
Proof.
  induction cs as [|c cs IH]; intros b H; auto.
  inversion H as [|? ? Hc Hcs]; subst.
  change (backend_replay (c :: cs) b)
    with (backend_replay cs (backend_apply c b)).
  rewrite IH by assumption.
  destruct c as [|ks|k v|k]; simpl backend_apply; auto.
  - now apply backend_get_set_other.
  - now apply backend_get_remove_other.
Qed.

Lemma backend_replay_removals (P k : string) (ks : list string) :
  forall b : Backend,
    backend_get (P ++ k)
      (backend_replay (map (fun k' => CallRemoveItem (P ++ k')%string) ks) b) =
    if existsb (String.eqb k) ks then None else backend_get (P ++ k) b.
Proof.
  induction ks as [|k' ks IH]; intros b; auto.
  simpl map.
  change (backend_replay (?c :: ?cs) b)
    with (backend_replay cs (backend_apply c b)).
  rewrite IH. simpl.
  destruct (existsb (String.eqb k) ks); [now rewrite orb_true_r|].
  rewrite orb_false_r.
  destruct (String.eqb_spec k k') as [->|Hne].
  - apply backend_get_remove_same.
  - apply backend_get_remove_other. intros H. apply append_inj in H.
    congruence.
Qed.

Lemma run_calls_in_namespace (p : jsval) (t : list event) :
  forall s : Storage,
    _keyPrefix s = p ->
    Forall (fun c => match c with
                     | CallSetItem k _ | CallRemoveItem k =>
                         exists k0 : string, k = backendKey p k0
                     | _ => True
                     end) (calls s) ->
    Forall (fun c => match c with
                     | CallSetItem k _ | CallRemoveItem k =>
                         exists k0 : string, k = backendKey p k0
                     | _ => True
                     end) (calls (run t s)).
Proof.
  induction t as [|e t IH]; intros s Hp H; auto.
  rewrite run_cons. apply IH; [now rewrite step_keyPrefix|].
  destruct (step_calls e s) as [[l [Hl Hf]]|[_ [keys [Hl _]]]];
    rewrite Hl; apply Forall_app; split; auto.
  eapply Forall_impl; [|exact Hf]. rewrite Hp.
  intros c [k [->|[v ->]]]; now exists k.
Qed.

(** X11. An instance writes and removes backend keys of its own namespace
    only: whatever the trace, a backend key that does not start with the
    prefix is, after the backend has served all the recorded calls, what
    it was before. *)
Theorem foreign_backend_keys_untouched (p : jsval) (b0 : Backend)
    (t : list event) (x : string) :
  startsWith p x = false ->
  backend_get x (backend_replay (calls (run t (constructor p))) b0) =
  backend_get x b0.
Proof.
  intros Hx. apply backend_replay_other.
  eapply Forall_impl; [|apply (run_calls_in_namespace p t (constructor p))].
  - intros c Hc. destruct c as [|ks|k v|k]; auto;
      destruct Hc as [k0 ->]; intros <-; unfold startsWith, backendKey in Hx;
      now rewrite prefix_append in Hx.
  - unfold constructor. now destruct (is_defined p).
  - unfold constructor. destruct (is_defined p); simpl; repeat constructor.
Qed.

Lemma foreign_backend_keys_untouched_witness :
  let t := [Invoke (OpSetItem "z" (JStr "1")); Invoke OpClear;
            GetAllKeysSettled (Some ["qz"]);
            Invoke (OpRemoveItem "qz")] in
  startsWith (JStr "p") "qz" = false /\
  backend_get "qz"
    (backend_replay (calls (run t (constructor (JStr "p")))) [("qz", "3")]) =
  backend_get "qz" [("qz", "3")].
Proof.
  intros t. split; [reflexivity|].
  apply (foreign_backend_keys_untouched (JStr "p") [("qz", "3")] t "qz").
  reflexivity.
Defined.

(** ** Write-through *)

Lemma exec_mirrors (b0 : Backend) (o : op) (s : Storage) :
  wf s -> is_defined (_keyPrefix s) = true ->
  mirrors (backend_replay (calls s) b0) s ->
  mirrors (backend_replay (calls (fst (exec o s))) b0) (fst (exec o s)).
Proof.
  intros Hwf Hp Hm k. rewrite exec_keyPrefix.
  destruct o as [|k'|n| |k'|k' v]; simpl; auto.
  - rewrite clear_items, find_all_empty.
    unfold clear. rewrite (clear_loop_calls (_items s) _ 0 s); auto.
    rewrite backend_replay_app. pose proof (Hm k) as Hk.
    unfold backendKey in *. rewrite backend_replay_removals.
    destruct (existsb (String.eqb k) (JsMap.keys (_items s))) eqn:E; auto.
    rewrite <- Hk. symmetry. apply find_none_keys.
    intros Hin.
    assert (existsb (String.eqb k) (JsMap.keys (_items s)) = true).
    { apply existsb_exists. exists k. split; auto. apply String.eqb_refl. }
    congruence.
  - rewrite removeItem_items. unfold removeItem. rewrite Hp. simpl.
    rewrite backend_replay_app. simpl.
    destruct (String.eqb_spec k' k) as [->|Hne].
    + rewrite find_delete_same by assumption.
      now rewrite backend_get_remove_same.
    + rewrite find_delete_other by assumption.
      rewrite backend_get_remove_other; [apply Hm|].
      unfold backendKey. intros H. now apply append_inj in H.
  - rewrite setItem_items. unfold setItem. rewrite Hp. simpl.
    rewrite backend_replay_app.
    change (backend_replay [?c] ?b) with (backend_apply c b).
    unfold backend_apply.
    destruct (String.eqb_spec k' k) as [->|Hne].
    + now rewrite find_set_same, backend_get_set_same.
    + rewrite find_set_other by assumption.
      rewrite backend_get_set_other; [apply Hm|].
      unfold backendKey. intros H. now apply append_inj in H.
Qed.

Lemma run_mirrors (b0 : Backend) (t : list event) :
  forall s : Storage,
    wf s -> is_defined (_keyPrefix s) = true ->
    merge_runs t s = false ->
    mirrors (backend_replay (calls s) b0) s ->
    mirrors (backend_replay (calls (run t s)) b0) (run t s).
Proof.
  induction t as [|e t IH]; intros s Hwf Hp Hr Hm; auto.
  simpl in Hr. apply orb_false_iff in Hr as [Hr1 Hr2].
  rewrite run_cons.
  apply IH; auto using step_wf; [now rewrite step_keyPrefix|].
  destruct e as [o|[ks|]|[r|]|ok]; simpl; auto.
  - now apply exec_mirrors.
  - destruct (task s); auto. intros k. simpl.
    rewrite backend_replay_app. apply Hm.
  - destruct (task s); auto.
  - unfold merges in Hr1. simpl in Hr1. destruct (task s); auto.
    discriminate.
  - destruct (task s); auto.
Qed.

(** X12. Write-through: take an instance with a prefix, over a backend that
    holds nothing under the prefix, and a trace in which the merge loop
    does not run.  Once the backend has served the recorded calls, it
    holds under [String(prefix) + k] exactly the value the items hold
    under [k], for every [k]. *)
Theorem write_through_mirror (p : jsval) (b0 : Backend) (t : list event) :
  is_defined p = true ->
  (forall k : string, backend_get (backendKey p k) b0 = None) ->
  merge_runs t (constructor p) = false ->
  mirrors (backend_replay (calls (run t (constructor p))) b0)
    (run t (constructor p)).
Proof.
  intros Hp Hb Hr.
  assert (E : constructor p =
              mkStorage JsMap.empty p AwaitingKeys [CallGetAllKeys])
    by (unfold constructor; now rewrite Hp).
  apply run_mirrors; auto using wf_constructor.
  - now rewrite E.
  - rewrite E. intros k. simpl. now rewrite Hb.
Qed.

Lemma write_through_mirror_witness :
  let t := [Invoke (OpSetItem "a" (JStr "1"));
            GetAllKeysSettled (Some ["qz"]);
            Invoke (OpSetItem "b" (JBool true));
            Invoke (OpRemoveItem "a");
            MultiGetSettled None] in
  is_defined (JStr "p") = true /\
  (forall k : string,
      backend_get (backendKey (JStr "p") k) [("qz", "3")] = None) /\
  merge_runs t (constructor (JStr "p")) = false /\
  mirrors (backend_replay (calls (run t (constructor (JStr "p"))))
             [("qz", "3")])
    (run t (constructor (JStr "p"))).
Proof.
  intros t.
  assert (Hb : forall k : string,
             backend_get (backendKey (JStr "p") k) [("qz", "3")] = None)
    by (intros k; reflexivity).
  split; [reflexivity|]. split; [exact Hb|]. split; [reflexivity|].
  exact (write_through_mirror (JStr "p") [("qz", "3")] t eq_refl Hb eq_refl).
Defined.

(** ** Persist, then load in a new instance *)

Lemma reconcile_find_string (p : string) (b : Backend) (k : string) :
  JsMap.find k (_items (reconcile b (constructor (JStr p)))) =
  option_map JStr (backend_get (p ++ k) b).
Proof.
  unfold reconcile. simpl. rewrite merge_loop_find. simpl.
  rewrite assoc_reconciled, existsb_backend_get.
  now destruct (backend_get (p ++ k) b).
Qed.

Lemma assoc_unstripped (P : string) (b : Backend) (k : string)
    (ks : list string) :
  assoc k (stripped 0 (backend_multiGet b (filter (String.prefix P) ks))) =
  if String.prefix P k && existsb (String.eqb k) ks
  then Some (match backend_get k b with
             | Some v => JStr v
             | None => JNull
             end)
  else None.
Proof.
  induction ks as [|pk ks IH]; simpl.
  - now rewrite andb_false_r.
  - destruct (String.prefix P pk) eqn:E; simpl.
    + destruct (String.eqb_spec pk k) as [->|Hne].
      * rewrite E, String.eqb_refl. reflexivity.
      * rewrite IH. destruct (String.eqb_spec k pk); [congruence|].
        reflexivity.
    + rewrite IH. destruct (String.eqb_spec k pk) as [->|Hne]; auto.
      rewrite E. simpl. reflexivity.
Qed.

(** X13. Round trip through the backend.  An instance with the string prefix
    [p] runs over a backend that holds nothing under [p], and its merge
    loop does not run; the backend serves the recorded calls; a new
    instance with the same prefix is constructed and its reconciliation
    completes.  The new instance reads, under every key, what the first
    one read. *)
Theorem persisted_items_load_back (p : string) (b0 : Backend)
    (t : list event) :
  (forall k : string, backend_get (p ++ k) b0 = None) ->
  merge_runs t (constructor (JStr p)) = false ->
  let s := run t (constructor (JStr p)) in
  let b := backend_replay (calls s) b0 in
  forall k : string,
    getItem k (reconcile b (constructor (JStr p))) = getItem k s.
Proof.
  intros Hb Hr s b k.
  pose proof (run_mirrors b0 t (constructor (JStr p))
                (wf_constructor _) eq_refl Hr) as Hm.
  assert (Hm0 : mirrors (backend_replay (calls (constructor (JStr p))) b0)
                  (constructor (JStr p))).
  { intros k'. simpl. unfold backendKey. simpl ToString.
    now rewrite Hb. }
  specialize (Hm Hm0). fold s in Hm. fold b in Hm.
  rewrite !getItem_find, reconcile_find_string, (Hm k).
  unfold s at 1. now rewrite run_keyPrefix.
Qed.

Lemma persisted_items_load_back_witness :
  let t := [Invoke (OpSetItem "a" (JStr "1"));
            GetAllKeysSettled (Some ["qz"]);
            Invoke (OpSetItem "b" JNull);
            Invoke (OpRemoveItem "a");
            MultiGetSettled None;
            Invoke (OpSetItem "c" (JStr "3"))] in
  let s := run t (constructor (JStr "p")) in
  let b := backend_replay (calls s) [("qz", "3")] in
  (forall k : string, backend_get ("p" ++ k) [("qz", "3")] = None) /\
  merge_runs t (constructor (JStr "p")) = false /\
  forall k : string,
    getItem k (reconcile b (constructor (JStr "p"))) = getItem k s.
Proof.
  intros t s b.
  assert (Hb : forall k : string, backend_get ("p" ++ k) [("qz", "3")] = None)
    by (intros k; reflexivity).
  split; [exact Hb|]. split; [reflexivity|].
  exact (persisted_items_load_back "p" [("qz", "3")] t Hb eq_refl).
Defined.

(** X14. Under the prefix [null] the round trip changes the keys.  The writes
    go to the backend under ["null" + k]; the next instance keeps the
    backend keys that start with ["null"] but cuts nothing off them.  What
    the first instance held under [k] the new one holds under
    ["null" + k], and it holds nothing under a key that does not start with
    ["null"]. *)
Theorem null_prefix_loads_prefixed_keys (b0 : Backend) (t : list event) :
  (forall k : string, backend_get ("null" ++ k) b0 = None) ->
  merge_runs t (constructor JNull) = false ->
  let s := run t (constructor JNull) in
  let b := backend_replay (calls s) b0 in
  forall k : string,
    getItem k (reconcile b (constructor JNull)) =
    if String.prefix "null" k then getItem (substring_from 4 k) s
    else JNull.
Proof.
  intros Hb Hr s b k.
  pose proof (run_mirrors b0 t (constructor JNull)
                (wf_constructor _) eq_refl Hr) as Hm.
  assert (Hm0 : mirrors (backend_replay (calls (constructor JNull)) b0)
                  (constructor JNull)).
  { intros k'. simpl. unfold backendKey. simpl ToString.
    now rewrite Hb. }
  specialize (Hm Hm0). fold s in Hm. fold b in Hm.
  rewrite !getItem_find.
  replace (JsMap.find k (_items (reconcile b (constructor JNull))))
    with (assoc k (stripped 0
                     (backend_multiGet b
                        (filter (String.prefix "null")
                           (backend_getAllKeys b))))).
  2:{ unfold reconcile. simpl. now rewrite merge_loop_find. }
  rewrite assoc_unstripped, existsb_backend_get.
  destruct (String.prefix "null" k) eqn:E; cbn [andb]; auto.
  apply (prefix_split "null" k) in E.
  change (String.length "null") with 4 in E.
  rewrite (Hm (substring_from 4 k)).
  unfold s at 1. rewrite run_keyPrefix.
  unfold backendKey. change (ToString (_keyPrefix (constructor JNull)))
    with "null".
  rewrite <- E.
  now destruct (backend_get k b).
Qed.

Lemma null_prefix_loads_prefixed_keys_witness :
  let t := [Invoke (OpSetItem "a" (JStr "1"))] in
  let s := run t (constructor JNull) in
  let b := backend_replay (calls s) [] in
  (forall k : string, backend_get ("null" ++ k) [] = None) /\
  merge_runs t (constructor JNull) = false /\
  getItem "a" s = JStr "1" /\
  getItem "a" (reconcile b (constructor JNull)) = JNull /\
  forall k : string,
    getItem k (reconcile b (constructor JNull)) =
    if String.prefix "null" k then getItem (substring_from 4 k) s
    else JNull.
Proof.
  intros t s b.
  assert (Hb : forall k : string, backend_get ("null" ++ k) [] = None)
    by (intros k; reflexivity).
  split; [exact Hb|]. split; [reflexivity|].
  split; [reflexivity|]. split; [reflexivity|].
  exact (null_prefix_loads_prefixed_keys [] t Hb eq_refl).
Defined.

(** X15. Prefixes that extend one another share their keys.  What an instance
    with the prefix [p ++ q] persisted under [k], an instance with the
    prefix [p] loads under [q ++ k]. *)
Theorem shorter_prefix_loads_longer_namespace (p q : string)
    (b0 : Backend) (t : list event) :
  (forall k : string, backend_get ((p ++ q) ++ k) b0 = None) ->
  merge_runs t (constructor (JStr (p ++ q))) = false ->
  let s := run t (constructor (JStr (p ++ q))) in
  let b := backend_replay (calls s) b0 in
  forall k : string,
    getItem (q ++ k) (reconcile b (constructor (JStr p))) = getItem k s.
Proof.
  intros Hb Hr s b k.
  pose proof (run_mirrors b0 t (constructor (JStr (p ++ q)))
                (wf_constructor _) eq_refl Hr) as Hm.
  assert (Hm0 : mirrors
                  (backend_replay (calls (constructor (JStr (p ++ q)))) b0)
                  (constructor (JStr (p ++ q)))).
  { intros k'. simpl. unfold backendKey. simpl ToString.
    now rewrite Hb. }
  specialize (Hm Hm0). fold s in Hm. fold b in Hm.
  rewrite !getItem_find, reconcile_find_string, (Hm k).
  unfold s at 1. rewrite run_keyPrefix.
  unfold backendKey. simpl. now rewrite append_assoc.
Qed.

Lemma shorter_prefix_loads_longer_namespace_witness :
  let t := [Invoke (OpSetItem "x" (JStr "1"))] in
  let s := run t (constructor (JStr ("app" ++ ".user"))) in
  let b := backend_replay (calls s) [] in
  (forall k : string, backend_get (("app" ++ ".user") ++ k) [] = None) /\
  merge_runs t (constructor (JStr ("app" ++ ".user"))) = false /\
  getItem ".userx" (reconcile b (constructor (JStr "app"))) = JStr "1" /\
  forall k : string,
    getItem (".user" ++ k) (reconcile b (constructor (JStr "app"))) =
    getItem k s.
Proof.
  intros t s b.
  assert (Hb : forall k : string,
             backend_get (("app" ++ ".user") ++ k) [] = None)
    by (intros k; reflexivity).
  split; [exact Hb|]. split; [reflexivity|]. split; [reflexivity|].
  exact (shorter_prefix_loads_longer_namespace "app" ".user" [] t Hb eq_refl).
Defined.

(** ** The values the storage holds *)

Lemma string_valued_set (k : string) (v : jsval) (m : JsMap.t) :
  is_string v = true -> string_valued m ->
  string_valued (JsMap.set k v m).
Proof.
  intros Hv. unfold string_valued.
  induction m as [|[[k0 v0]|] m IH]; simpl; intros H.
  - now repeat constructor.
  - inversion H; subst. destruct (String.eqb k0 k); constructor; auto.
  - inversion H; subst. constructor; auto.
Qed.

Lemma string_valued_delete (k : string) (m : JsMap.t) :
  string_valued m -> string_valued (JsMap.delete k m).
Proof.
  unfold string_valued.
  induction m as [|[[k0 v0]|] m IH]; simpl; intros H; auto.
  - inversion H; subst. destruct (String.eqb k0 k); constructor; auto.
  - inversion H; subst. constructor; auto.
Qed.

Lemma string_valued_all_empty (n : nat) : string_valued (repeat None n).
Proof. induction n; simpl; constructor; auto. Qed.

Lemma string_valued_merge (n : nat) (r : list (string * jsval)) :
  forallb (fun kv => is_string (snd kv)) r = true ->
  forall m : JsMap.t, string_valued m -> string_valued (merge_loop n r m).
Proof.
  induction r as [|[pk v] r IH]; simpl; intros Hr m Hm; auto.
  apply andb_true_iff in Hr as [Hv Hr].
  destruct (JsMap.has (substring_from n pk) m); simpl; auto.
  apply IH; auto. now apply string_valued_set.
Qed.

Lemma string_valued_find (k : string) (v : jsval) (m : JsMap.t) :
  string_valued m -> JsMap.find k m = Some v -> is_string v = true.
Proof.
  unfold string_valued.
  induction m as [|[[k0 v0]|] m IH]; simpl; intros H Hf;
    try discriminate; inversion H; subst; auto.
  destruct (String.eqb k0 k); auto. now inversion Hf; subst.
Qed.

Lemma step_string_valued (e : event) (s : Storage) :
  string_results e = true -> string_valued (_items s) ->
  string_valued (_items (step e s)).
Proof.
  intros He Hs. destruct e as [o|[ks|]|[r|]|ok]; simpl;
    try (now destruct (task s)).
  - destruct o as [|k|n| |k|k v]; simpl; auto.
    + rewrite clear_items. apply string_valued_all_empty.
    + rewrite removeItem_items. now apply string_valued_delete.
    + rewrite setItem_items. now apply string_valued_set.
  - destruct (task s); auto. simpl. now apply string_valued_merge.
Qed.

(** X16. As long as the backend answers [multiGet] with strings only, the
    storage holds strings only: in every state of every such trace,
    [getItem] returns [null] or a string, never [undefined] or another
    value, whatever values the caller passed to [setItem]. *)
Theorem stored_values_are_strings (p : jsval) (t : list event)
    (k : string) :
  forallb string_results t = true ->
  getItem k (run t (constructor p)) = JNull \/
  is_string (getItem k (run t (constructor p))) = true.
Proof.
  intros Ht.
  assert (G : forall s, string_valued (_items s) ->
                        string_valued (_items (run t s))).
  { induction t as [|e t IH]; intros s Hs; auto.
    simpl in Ht. apply andb_true_iff in Ht as [He Ht].
    rewrite run_cons. apply IH; auto. now apply step_string_valued. }
  assert (H0 : string_valued (_items (constructor p)))
    by (unfold constructor; destruct (is_defined p); constructor).
  specialize (G _ H0). rewrite getItem_find.
  destruct (JsMap.find k (_items (run t (constructor p)))) eqn:E;
    [right | now left].
  exact (string_valued_find k j _ G E).
Qed.

Lemma stored_values_are_strings_witness :
  let t := [Invoke (OpSetItem "a" JUndefined);
            GetAllKeysSettled (Some ["pb"]);
            Invoke (OpSetItem "c" (JBool false));
            MultiGetSettled (Some [("pb", JStr "2")])] in
  forallb string_results t = true /\
  (getItem "a" (run t (constructor (JStr "p"))) = JNull \/
   is_string (getItem "a" (run t (constructor (JStr "p")))) = true).
Proof.
  intros t. split; [reflexivity|].
  apply (stored_values_are_strings (JStr "p") t "a"). reflexivity.
Defined.

(** ** Edges of the reconciliation *)

Lemma substring_from_short (n : nat) :
  forall s : string, String.length s <= n -> substring_from n s = "".
Proof.
  induction n as [|n IH]; intros [|a s] H; simpl in *; auto; try lia.
  apply IH. lia.
Qed.

(** X17. A [multiGet] pair whose key is not longer than the prefix is not
    skipped: the loop cuts the whole key off and stores the value under
    the empty key, when that key is free. *)
Theorem short_backend_key_is_stored_under_empty_key (s : Storage)
    (keys : list string) (pk : string) (v : jsval)
    (rest : list (string * jsval)) :
  task s = AwaitingValues keys ->
  String.length pk <= keyPrefixLength (_keyPrefix s) ->
  JsMap.has "" (_items s) = false ->
  let s' := step (MultiGetSettled (Some ((pk, v) :: rest))) s in
  JsMap.has "" (_items s') = true /\ JsMap.get "" (_items s') = v /\
  length s < length s'.
Proof.
  intros Ht Hlen Hh s'.
  assert (Hi : _items s' =
               merge_loop (keyPrefixLength (_keyPrefix s)) rest
                 (JsMap.set "" v (_items s))).
  { unfold s'. simpl. rewrite Ht. simpl.
    rewrite (substring_from_short _ pk Hlen). now rewrite Hh. }
  assert (Hf : JsMap.find "" (_items s') = Some v)
    by now rewrite Hi, merge_loop_find, find_set_same.
  unfold JsMap.has, JsMap.get, length. rewrite Hf.
  split; auto. split; auto.
  rewrite Hi.
  pose proof (merge_loop_size (keyPrefixLength (_keyPrefix s)) rest
                (JsMap.set "" v (_items s))) as H.
  rewrite size_set, Hh in H. lia.
Qed.

Lemma short_backend_key_is_stored_under_empty_key_witness :
  let s := step (GetAllKeysSettled (Some ["app.x"])) (constructor (JStr "app.")) in
  let s' := step (MultiGetSettled (Some [("app", JStr "1")])) s in
  task s = AwaitingValues ["app.x"] /\
  String.length "app" <= keyPrefixLength (_keyPrefix s) /\
  JsMap.has "" (_items s) = false /\
  JsMap.has "" (_items s') = true /\ JsMap.get "" (_items s') = JStr "1" /\
  length s < length s'.
Proof.
  intros s.
  assert (H : String.length "app" <= keyPrefixLength (_keyPrefix s))
    by (simpl; lia).
  split; [reflexivity|]. split; [exact H|]. split; [reflexivity|].
  exact (short_backend_key_is_stored_under_empty_key s ["app.x"] "app"
           (JStr "1") [] eq_refl H eq_refl).
Defined.

Lemma merge_runs_app (t1 t2 : list event) :
  forall s : Storage,
    merge_runs (t1 ++ t2) s = merge_runs t1 s || merge_runs t2 (run t1 s).
Proof.
  induction t1 as [|e t1 IH]; intros s; simpl; auto.
  now rewrite IH, orb_assoc.
Qed.

Lemma run_multiGet_calls_over (t : list event) :
  forall s : Storage,
    task s = TaskOver ->
    filter is_multiGet_call (calls (run t s)) =
    filter is_multiGet_call (calls s).
Proof.
  induction t as [|e t IH]; intros s Ht; auto.
  rewrite run_cons, IH by now apply step_task_over.
  destruct (step_calls e s) as [[l [Hl Hf]]|[Hk _]]; [|congruence].
  apply persistence_calls_only in Hf as [_ Hm].
  now rewrite Hl, filter_app, Hm, app_nil_r.
Qed.

Lemma run_multiGet_calls_awaiting_keys (t : list event) :
  forall s : Storage,
    (task s = AwaitingKeys -> filter is_multiGet_call (calls s) = []) ->
    task (run t s) = AwaitingKeys ->
    filter is_multiGet_call (calls (run t s)) = [].
Proof.
  induction t as [|e t IH]; intros s H Ht; auto.
  rewrite run_cons in *. apply IH; auto.
  intros Hk. pose proof (step_awaiting_keys e s Hk) as Hk0.
  destruct (step_calls e s) as [[l [Hl Hf]]|[_ [keys [_ Hv]]]];
    [|congruence].
  apply persistence_calls_only in Hf as [_ Hm].
  now rewrite Hl, filter_app, Hm, app_nil_r, H.
Qed.

(** X18. A rejected [getAllKeys] ends the reconciliation: [multiGet] is never
    called, whatever comes next, and the items stay what the caller's
    operations make them. *)
Theorem rejected_getAllKeys_ends_reconciliation (p : jsval)
    (t1 t2 : list event) (k : string) :
  task (run t1 (constructor p)) = AwaitingKeys ->
  let s := run (t1 ++ GetAllKeysSettled None :: t2) (constructor p) in
  filter is_multiGet_call (calls s) = [] /\
  JsMap.find k (_items s) = union_caller_first (invoked (t1 ++ t2)) [] k.
Proof.
  intros Ht s.
  set (s1 := run t1 (constructor p)) in *.
  assert (Hs2 : step (GetAllKeysSettled None) s1 = onRejected s1)
    by (simpl; now rewrite Ht).
  split.
  - unfold s. rewrite run_app, run_cons. fold s1. rewrite Hs2.
    rewrite run_multiGet_calls_over by reflexivity. simpl.
    apply run_multiGet_calls_awaiting_keys; auto.
    unfold constructor. now destruct (is_defined p).
  - unfold s, union_caller_first.
    rewrite run_find; auto using wf_constructor.
    + rewrite !invoked_app. simpl.
      assert (E0 : JsMap.find k (_items (constructor p)) = None)
        by (unfold constructor; now destruct (is_defined p)).
      now rewrite E0.
    + rewrite merge_runs_app. fold s1. cbn [merge_runs]. rewrite Hs2.
      rewrite (merge_runs_task_over t2) by reflexivity.
      unfold merges. simpl. rewrite orb_false_r.
      destruct (merge_runs t1 (constructor p)) eqn:E; auto.
      apply merge_runs_ends_task in E. fold s1 in E. congruence.
Qed.

Lemma rejected_getAllKeys_ends_reconciliation_witness :
  let t1 := [Invoke (OpSetItem "a" (JStr "1"))] in
  let t2 := [MultiGetSettled (Some [("pa", JStr "old"); ("pb", JStr "2")]);
             GetAllKeysSettled (Some ["pa"; "pb"])] in
  let s := run (t1 ++ GetAllKeysSettled None :: t2) (constructor (JStr "p")) in
  task (run t1 (constructor (JStr "p"))) = AwaitingKeys /\
  filter is_multiGet_call (calls s) = [] /\
  JsMap.find "b" (_items s) = union_caller_first (invoked (t1 ++ t2)) [] "b".
Proof.
  intros t1 t2 s. split; [reflexivity|].
  apply (rejected_getAllKeys_ends_reconciliation (JStr "p") t1 t2 "b").
  reflexivity.
Defined.
